(** * List view drag-and-drop: tree mutation, position registry, targeting

    A shallow embedding of
    [packages/block-editor/src/components/list-view/index.js]:
    the three tree rewriting functions, [findFirstValidSibling], the
    drag tick [moveItem] and the commit step [dropItem].

    Modelling conventions.
    - A block of the client-id tree is a record with its [clientId], its
      two transient drop flags and its ordered [innerBlocks].
    - JavaScript numbers delivered by the gesture library (translate,
      velocity) are exact rationals [Q]; list positions are integers [Z].
    - The position registry, a JS object keyed by list position, is a
      [gmap Z position].
    - Where object identity matters (in-place assignment to a field of a
      block) blocks live in an explicit store, see [Module Store]. *)

From Stdlib Require Import QArith Qabs Qround.
From stdpp Require Import base gmap strings list fin_maps.

Set Warnings "-register-all".
Open Scope Z_scope.

(** The empty JS string ['']. *)
Definition empty_string : string := EmptyString.

(** ** Blocks and trees *)

Inductive block : Type :=
  Block {
    clientId : string;
    dropContainer : bool;
    dropSibling : bool;
    innerBlocks : list block
  }.

(** [{ ...block, innerBlocks }] *)
Definition with_innerBlocks (b : block) (inner : list block) : block :=
  Block (clientId b) (dropContainer b) (dropSibling b) inner.

(** [{ ...block }] : a shallow copy has the same fields. *)
Definition spread (b : block) : block :=
  Block (clientId b) (dropContainer b) (dropSibling b) (innerBlocks b).

(** [childTargetId !== '' ? childTargetId : targetId] *)
Definition nonempty_or (child current : string) : string :=
  if String.eqb child empty_string then current else child.

(** ** removeItemFromTree *)

Record removed := Removed { r_newTree : list block; removeParentId : string }.

(** The [for] loop of [removeItemFromTree], with the recursive call on
    [block.innerBlocks] abstracted as [rec]. [newTree] and
    [removeParentId] are the two loop-carried variables. *)
Definition remove_loop (rec : block -> removed) (id parentId : string)
  : list block -> list block -> string -> removed :=
  fix loop (tree newTree : list block) (rpid : string) : removed :=
    match tree with
    | [] => Removed newTree rpid
    | b :: rest =>
        if negb (String.eqb (clientId b) id) then
          if (0 <? Z.of_nat (length (innerBlocks b))) then
            let r := rec b in
            loop rest
                 (newTree ++ [with_innerBlocks b (r_newTree r)])
                 (nonempty_or (removeParentId r) rpid)
          else
            loop rest (newTree ++ [spread b]) rpid
        else
          loop rest newTree parentId
    end.

(** [removeItemFromTree( block.innerBlocks, id, block.clientId )] *)
Fixpoint remove_inner (id : string) (b : block) {struct b} : removed :=
  remove_loop (remove_inner id) id (clientId b) (innerBlocks b) [] empty_string.

Definition removeItemFromTree (tree : list block) (id : string)
  (parentId : string) : removed :=
  remove_loop (remove_inner id) id parentId tree [] empty_string.

(** ** addItemToTree *)

Record added := Added {
  a_newTree : list block;
  targetId : string;
  targetIndex : Z
}.

Definition add_loop (rec : block -> added) (id : string) (item : block)
  (insertAfter : bool) (parentId : string)
  : list block -> list block -> Z -> string -> added :=
  fix loop (tree newTree : list block) (tidx : Z) (tid : string) : added :=
    match tree with
    | [] => Added newTree tid tidx
    | b :: rest =>
        if String.eqb (clientId b) id then
          if insertAfter then
            loop rest (newTree ++ [spread b] ++ [spread item])
                 (Z.of_nat (length newTree) + 1) parentId
          else
            loop rest (newTree ++ [spread item] ++ [spread b])
                 (Z.of_nat (length newTree)) parentId
        else
          if (0 <? Z.of_nat (length (innerBlocks b))) then
            let r := rec b in
            loop rest
                 (newTree ++ [with_innerBlocks b (a_newTree r)])
                 (Z.max tidx (targetIndex r))
                 (nonempty_or (targetId r) tid)
          else
            loop rest (newTree ++ [spread b]) tidx tid
    end.

Fixpoint add_inner (id : string) (item : block) (insertAfter : bool)
  (b : block) {struct b} : added :=
  add_loop (add_inner id item insertAfter) id item insertAfter (clientId b)
           (innerBlocks b) [] (-1) empty_string.

Definition addItemToTree (tree : list block) (id : string) (item : block)
  (insertAfter : bool) (parentId : string) : added :=
  add_loop (add_inner id item insertAfter) id item insertAfter parentId
           tree [] (-1) empty_string.

(** ** addChildItemToTree

    The value computed by [addChildItemToTree]. The matching branch
    assigns [block.innerBlocks] in place; the effect of that assignment
    on the caller's objects is modelled in [Module Store]. *)

Definition addChild_loop (rec : block -> list block) (id : string)
  (item : block) : list block -> list block -> list block :=
  fix loop (tree newTree : list block) : list block :=
    match tree with
    | [] => newTree
    | b :: rest =>
        if String.eqb (clientId b) id then
          loop rest (newTree ++ [with_innerBlocks b (item :: innerBlocks b)])
        else
          if (0 <? Z.of_nat (length (innerBlocks b))) then
            loop rest (newTree ++ [with_innerBlocks b (rec b)])
          else
            loop rest (newTree ++ [spread b])
    end.

Fixpoint addChild_inner (id : string) (item : block) (b : block)
  {struct b} : list block :=
  addChild_loop (addChild_inner id item) id item (innerBlocks b) [].

Definition addChildItemToTree (tree : list block) (id : string)
  (item : block) : list block :=
  addChild_loop (addChild_inner id item) id item tree [].

(** ** Position registry *)

(** What a row writes with [setPosition( listPosition, {...} )]. *)
Record position := Position {
  pos_clientId : string;
  pos_dropContainer : bool;
  pos_dropSibling : bool;
  pos_parentId : string
}.

(** [positions[ listPosition ] = offset] *)
Definition setPosition (positions : gmap Z position) (listPosition : Z)
  (offset : position) : gmap Z position :=
  <[listPosition := offset]> positions.

(** Comparisons of JS numbers, as booleans. *)
Definition Qltb (x y : Q) : bool := negb (Qle_bool y x).
Definition Qgtb (x y : Q) : bool := Qltb y x.

(** What a call can do besides returning a value: throw (reading
    [.parentId] of [undefined]), or fail to return within the fuel given
    to a loop. *)
Inductive outcome (A : Type) : Type :=
  | Returns (a : A)
  | Throws
  | Diverges.
Arguments Returns {A} a.
Arguments Throws {A}.
Arguments Diverges {A}.

(** The [while ( positions[ index ] !== undefined )] loop. [None] stands
    for the pair [[ null, null ]]. *)
Fixpoint sibling_walk (fuel : nat) (positions : gmap Z position)
  (currentPosition : option position) (iterate index : Z)
  : outcome (option (position * Z)) :=
  match fuel with
  | O => Diverges
  | S fuel' =>
      match positions !! index with
      | None => Returns None
      | Some p =>
          if pos_dropSibling p then
            match currentPosition with
            | None => Throws
            | Some cur =>
                if String.eqb (pos_parentId p) (pos_parentId cur)
                then Returns (Some (p, index))
                else sibling_walk fuel' positions currentPosition iterate
                                  (index + iterate)
            end
          else sibling_walk fuel' positions currentPosition iterate
                            (index + iterate)
      end
  end.

(** The registry holds finitely many rows, and each turn of the loop
    consumes one that is never visited again: one more turn than there
    are rows always suffices (lemma [findFirstValidSibling_terminates]). *)
Definition findFirstValidSibling (positions : gmap Z position) (current : Z)
  (velocity : Q) : outcome (option (position * Z)) :=
  let iterate := if Qgtb velocity 0 then 1 else -1 in
  sibling_walk (S (size positions)) positions (positions !! current)
               iterate (current + iterate).

(** ** Drag session state *)

(** [lastTarget.current] *)
Record pending := Pending {
  pt_clientId : string;
  originalParent : string;
  pt_targetId : string;
  pt_targetIndex : Z
}.

(** One call of the store action [moveBlocksToPosition]. *)
Record move_call := MoveCall {
  mc_clientIds : list string;
  mc_fromParent : string;
  mc_toParent : string;
  mc_index : Z
}.

(** The component state that [moveItem] and [dropItem] read and write:
    the working tree ([tree]/[setTree]), the pending target
    ([lastTarget.current]), the registry ([positionsRef.current]), the
    [dropped] flag, and the calls made so far to the external store. *)
Record view := View {
  tree : list block;
  lastTarget : option pending;
  positions : gmap Z position;
  dropped : bool;
  moveCalls : list move_call
}.

Definition set_target (s : view) (t : pending) (newTree : list block) : view :=
  View newTree (Some t) (positions s) (dropped s) (moveCalls s).

(** The argument object of [moveItem]. [velocity] is [None] when the
    motion value is absent ([velocity?.get() ?? 0]). *)
Record drag_tick := DragTick {
  dt_block : block;
  translate : Q;
  translateX : Q;
  listPosition : Z;
  velocity : option Q
}.

Inductive direction := UP | DOWN.

Definition is_up (d : direction) : bool :=
  match d with UP => true | DOWN => false end.
Definition is_down (d : direction) : bool := negb (is_up d).

Definition ITEM_HEIGHT : Q := 36.
Definition UPDATE_PARENT_THRESHOLD : Q := 20.

(** [removeItemFromTree] then [addItemToTree], and the pending target
    recorded from their results (lines 330-346 and 405-421). *)
Definition move_adjacent (clientIdsTree : list block) (s : view)
  (b : block) (target : position) (d : direction) : view :=
  let r := removeItemFromTree clientIdsTree (clientId b) empty_string in
  let a := addItemToTree (r_newTree r) (pos_clientId target) b (is_down d)
                         empty_string in
  set_target s
    (Pending (clientId b) (removeParentId r) (targetId a) (targetIndex a))
    (a_newTree a).

(** [removeItemFromTree] then [addChildItemToTree] (lines 350-366 and
    371-387). *)
Definition move_into (clientIdsTree : list block) (s : view)
  (b : block) (target : position) : view :=
  let r := removeItemFromTree clientIdsTree (clientId b) empty_string in
  let newTree := addChildItemToTree (r_newTree r) (pos_clientId target) b in
  set_target s
    (Pending (clientId b) (removeParentId r) (pos_clientId target) 0)
    newTree.

(** [Math.ceil( Math.abs( translate / ITEM_HEIGHT ) )] *)
Definition steps_of (translate : Q) : Z :=
  Qceiling (Qabs (translate / ITEM_HEIGHT)).

Definition next_index (d : direction) (listPosition : Z) (translate : Q) : Z :=
  if is_up d then listPosition - steps_of translate
  else listPosition + steps_of translate.

(** The body of [moveItem] below the guards, when
    [Math.abs( translateX ) > UPDATE_PARENT_THRESHOLD]. *)
Definition reparent (clientIdsTree : list block) (s : view) (a : drag_tick)
  (d : direction) : view :=
  match positions s !! next_index d (listPosition a) (translate a) with
  | None => s
  | Some targetPosition =>
      if Qltb (translateX a) 0 then
        if String.eqb (pos_parentId targetPosition) empty_string
           || pos_dropSibling targetPosition
        then move_adjacent clientIdsTree s (dt_block a) targetPosition d
        else if pos_dropContainer targetPosition
        then move_into clientIdsTree s (dt_block a) targetPosition
        else s
      else if Qgtb (translateX a) 0 then
        if pos_dropContainer targetPosition
        then move_into clientIdsTree s (dt_block a) targetPosition
        else s
      else s
  end.

(** The sibling swap at the end of [moveItem]. *)
Definition sibling_swap (clientIdsTree : list block) (s : view)
  (a : drag_tick) (v : Q) (d : direction) : outcome view :=
  match findFirstValidSibling (positions s) (listPosition a) v with
  | Diverges => Diverges
  | Throws => Throws
  | Returns None => Returns s
  | Returns (Some (targetPosition, nextIndex)) =>
      if Qgtb (Qabs (translate a))
              (ITEM_HEIGHT * inject_Z (Z.abs (listPosition a - nextIndex)) / 2)
      then Returns (move_adjacent clientIdsTree s (dt_block a) targetPosition d)
      else Returns s
  end.

(** [moveItem]. [clientIdsTree] is the authoritative tree handed to the
    component by [useListViewClientIds]. *)
Definition moveItem (clientIdsTree : list block) (s : view) (a : drag_tick)
  : outcome view :=
  let v := default 0%Q (velocity a) in
  if Qeq_bool v 0 then Returns s else
  let d := if Qgtb v 0 then DOWN else UP in
  let draggingUpPastBounds :=
    bool_decide (positions s !! (listPosition a + 1) = None)
    && is_up d && Qgtb (translate a) 0 in
  let draggingDownPastBounds :=
    (listPosition a =? 0) && is_down d && Qltb (translate a) 0 in
  if draggingUpPastBounds || draggingDownPastBounds then Returns s else
  if (is_down d && Qltb (translate a) 0) || (is_up d && Qgtb (translate a) 0)
  then Returns s else
  if Qltb (Qabs (translate a)) (ITEM_HEIGHT / 2) then Returns s else
  if Qgtb (Qabs (translateX a)) UPDATE_PARENT_THRESHOLD
  then Returns (reparent clientIdsTree s a d)
  else sibling_swap clientIdsTree s a v d.

(** [dropItem], up to and including the call of [moveBlocksToPosition].
    What follows the [await] only arms the timer that resets [dropped]. *)
Definition dropItem (s : view) : view :=
  match lastTarget s with
  | None => s
  | Some t =>
      View (tree s) None (positions s) true
           (moveCalls s ++
              [MoveCall [pt_clientId t] (originalParent t) (pt_targetId t)
                        (pt_targetIndex t)])
  end.

(** The callback of [setTimeout( ..., 200 )]. *)
Definition settle (s : view) : view :=
  View (tree s) (lastTarget s) (positions s) false (moveCalls s).

(** ** Blocks as objects in a store

    The three tree functions again, this time on object references, to
    account for what they do to the objects they are given. An object
    holds the fields of a block; its [innerBlocks] is an array of
    references. Arrays are only ever built afresh by these functions
    ([newTree.push] on a local array, array literals), never updated in
    place once reachable from a block, so an array is modelled by its
    contents. Object literals allocate. Recursion is bounded by [fuel]:
    a store can hold cyclic structures. [None] is running out of fuel or
    dereferencing a reference that is not in the store. *)

Module Store.

Record obj := Obj {
  o_clientId : string;
  o_dropContainer : bool;
  o_dropSibling : bool;
  o_innerBlocks : list positive
}.

(** An object literal: a fresh reference, bound to the new object. *)
Definition alloc (h : gmap positive obj) (o : obj)
  : positive * gmap positive obj :=
  let l := fresh (dom h) in (l, <[l := o]> h).

(** [{ ...block, innerBlocks }], reading [block] from the store. *)
Definition copy_with (h : gmap positive obj) (l : positive)
  (inner : list positive) : option obj :=
  match h !! l with
  | None => None
  | Some b => Some (Obj (o_clientId b) (o_dropContainer b) (o_dropSibling b) inner)
  end.

Definition remove_loop
  (rec : list positive -> string -> gmap positive obj
         -> option (list positive * string * gmap positive obj))
  (id parentId : string) :=
  fix loop (tree newTree : list positive) (rpid : string)
      (h : gmap positive obj) {struct tree}
    : option (list positive * string * gmap positive obj) :=
    match tree with
    | [] => Some (newTree, rpid, h)
    | l :: rest =>
        match h !! l with
        | None => None
        | Some b =>
            if negb (String.eqb (o_clientId b) id) then
              if (0 <? Z.of_nat (length (o_innerBlocks b))) then
                match rec (o_innerBlocks b) (o_clientId b) h with
                | None => None
                | Some (inner, c, h1) =>
                    match copy_with h1 l inner with
                    | None => None
                    | Some o =>
                        let '(l', h2) := alloc h1 o in
                        loop rest (newTree ++ [l']) (nonempty_or c rpid) h2
                    end
                end
              else
                let '(l', h1) := alloc h b in
                loop rest (newTree ++ [l']) rpid h1
            else loop rest newTree parentId h
        end
    end.

Fixpoint removeItemFromTree (fuel : nat) (tree : list positive)
  (id parentId : string) (h : gmap positive obj)
  : option (list positive * string * gmap positive obj) :=
  match fuel with
  | O => None
  | S fuel' =>
      remove_loop (fun t p h' => removeItemFromTree fuel' t id p h')
                  id parentId tree [] empty_string h
  end.

Definition add_loop
  (rec : list positive -> string -> gmap positive obj
         -> option (list positive * string * Z * gmap positive obj))
  (id : string) (item : positive) (insertAfter : bool) (parentId : string) :=
  fix loop (tree newTree : list positive) (tidx : Z) (tid : string)
      (h : gmap positive obj) {struct tree}
    : option (list positive * string * Z * gmap positive obj) :=
    match tree with
    | [] => Some (newTree, tid, tidx, h)
    | l :: rest =>
        match h !! l with
        | None => None
        | Some b =>
            if String.eqb (o_clientId b) id then
              match h !! item with
              | None => None
              | Some it =>
                  if insertAfter then
                    let '(lb, h1) := alloc h b in
                    let '(li, h2) := alloc h1 it in
                    loop rest (newTree ++ [lb] ++ [li])
                         (Z.of_nat (length newTree) + 1) parentId h2
                  else
                    let '(li, h1) := alloc h it in
                    let '(lb, h2) := alloc h1 b in
                    loop rest (newTree ++ [li] ++ [lb])
                         (Z.of_nat (length newTree)) parentId h2
              end
            else
              if (0 <? Z.of_nat (length (o_innerBlocks b))) then
                match rec (o_innerBlocks b) (o_clientId b) h with
                | None => None
                | Some (inner, ctid, ctidx, h1) =>
                    match copy_with h1 l inner with
                    | None => None
                    | Some o =>
                        let '(l', h2) := alloc h1 o in
                        loop rest (newTree ++ [l'])
                             (Z.max tidx ctidx) (nonempty_or ctid tid) h2
                    end
                end
              else
                let '(l', h1) := alloc h b in
                loop rest (newTree ++ [l']) tidx tid h1
        end
    end.

Fixpoint addItemToTree (fuel : nat) (tree : list positive) (id : string)
  (item : positive) (insertAfter : bool) (parentId : string)
  (h : gmap positive obj)
  : option (list positive * string * Z * gmap positive obj) :=
  match fuel with
  | O => None
  | S fuel' =>
      add_loop (fun t p h' => addItemToTree fuel' t id item insertAfter p h')
               id item insertAfter parentId tree [] (-1) empty_string h
  end.

(** In the matching branch [block.innerBlocks = [ item, ...block.innerBlocks ]]
    overwrites a field of the object [l] that the caller passed in, and
    [newTree.push( block )] pushes that same reference. *)
Definition addChild_loop
  (rec : list positive -> gmap positive obj
         -> option (list positive * gmap positive obj))
  (id : string) (item : positive) :=
  fix loop (tree newTree : list positive) (h : gmap positive obj)
      {struct tree} : option (list positive * gmap positive obj) :=
    match tree with
    | [] => Some (newTree, h)
    | l :: rest =>
        match h !! l with
        | None => None
        | Some b =>
            if String.eqb (o_clientId b) id then
              let h1 :=
                <[l := Obj (o_clientId b) (o_dropContainer b) (o_dropSibling b)
                           (item :: o_innerBlocks b)]> h in
              loop rest (newTree ++ [l]) h1
            else
              if (0 <? Z.of_nat (length (o_innerBlocks b))) then
                match rec (o_innerBlocks b) h with
                | None => None
                | Some (inner, h1) =>
                    let '(l', h2) :=
                      alloc h1 (Obj (o_clientId b) (o_dropContainer b)
                                    (o_dropSibling b) inner) in
                    loop rest (newTree ++ [l']) h2
                end
              else
                let '(l', h1) := alloc h b in
                loop rest (newTree ++ [l']) h1
        end
    end.

Fixpoint addChildItemToTree (fuel : nat) (tree : list positive) (id : string)
  (item : positive) (h : gmap positive obj)
  : option (list positive * gmap positive obj) :=
  match fuel with
  | O => None
  | S fuel' =>
      addChild_loop (fun t h' => addChildItemToTree fuel' t id item h')
                    id item tree [] h
  end.

(** The reference [l] holds, in store [h], the block [b]. *)
Inductive repr (h : gmap positive obj) : positive -> block -> Prop :=
  | repr_obj l o inner :
      h !! l = Some o ->
      Forall2 (repr h) (o_innerBlocks o) inner ->
      repr h l (Block (o_clientId o) (o_dropContainer o) (o_dropSibling o) inner).

End Store.

(** ** Vocabulary of the specification *)

(** The client ids of a block and of all blocks below it, in document
    order; and those of a tree. *)
Fixpoint block_ids (b : block) : list string :=
  clientId b :: flat_map block_ids (innerBlocks b).

Definition tree_ids (t : list block) : list string := flat_map block_ids t.

(** Nesting depth of a tree. *)
Fixpoint block_height (b : block) : nat :=
  S (foldr (fun c n => Nat.max (block_height c) n) O (innerBlocks b)).

Definition tree_height (t : list block) : nat :=
  foldr (fun c n => Nat.max (block_height c) n) O t.

(** The first block, in document order, with a given client id. *)
Definition find_first (f : block -> option block)
  : list block -> option block :=
  fix go (t : list block) : option block :=
    match t with
    | [] => None
    | b :: rest => match f b with Some x => Some x | None => go rest end
    end.

Fixpoint find_block (id : string) (b : block) {struct b} : option block :=
  if String.eqb (clientId b) id then Some b
  else find_first (find_block id) (innerBlocks b).

Definition find_node (id : string) (t : list block) : option block :=
  find_first (find_block id) t.

(** [removed_at id parent t t' rp]: [t'] is [t] with one block of client
    id [id] left out of the sibling sequence it was in, everything else
    in place, and [rp] is the client id of the block whose [innerBlocks]
    that sequence was ([parent] for the sequence [t] itself). *)
Inductive removed_at (id : string)
  : string -> list block -> list block -> string -> Prop :=
  | removed_here parent l1 x l2 :
      clientId x = id ->
      removed_at id parent (l1 ++ x :: l2) (l1 ++ l2) parent
  | removed_below parent l1 p l2 inner' rp :
      removed_at id (clientId p) (innerBlocks p) inner' rp ->
      removed_at id parent (l1 ++ p :: l2)
                 (l1 ++ with_innerBlocks p inner' :: l2) rp.

(** [inserted_at id item after parent t t' i pid]: [t'] is [t] with
    [item] put next to one block of client id [id], in that block's
    sibling sequence, after it or before it; [i] is the index of [item]
    in that sequence and [pid] the client id of the block the sequence
    belongs to ([parent] for [t] itself). *)
Inductive inserted_at (id : string) (item : block) (after : bool)
  : string -> list block -> list block -> Z -> string -> Prop :=
  | inserted_here parent l1 x l2 :
      clientId x = id ->
      inserted_at id item after parent
        (l1 ++ x :: l2)
        (l1 ++ (if after then [x; item] else [item; x]) ++ l2)
        (Z.of_nat (length l1) + (if after then 1 else 0))
        parent
  | inserted_below parent l1 p l2 inner' i pid :
      inserted_at id item after (clientId p) (innerBlocks p) inner' i pid ->
      inserted_at id item after parent
        (l1 ++ p :: l2)
        (l1 ++ with_innerBlocks p inner' :: l2) i pid.

(** [nested_at id item t t']: [t'] is [t] with [item] put in front of
    the [innerBlocks] of one block of client id [id], nothing else
    changed. *)
Inductive nested_at (id : string) (item : block)
  : list block -> list block -> Prop :=
  | nested_here l1 x l2 :
      clientId x = id ->
      nested_at id item (l1 ++ x :: l2)
                (l1 ++ with_innerBlocks x (item :: innerBlocks x) :: l2)
  | nested_below l1 p l2 inner' :
      nested_at id item (innerBlocks p) inner' ->
      nested_at id item (l1 ++ p :: l2)
                (l1 ++ with_innerBlocks p inner' :: l2).

(** The test [findFirstValidSibling] applies to a row [p], given the
    row [cur] at the current position. *)
Definition qualifies (cur p : position) : bool :=
  pos_dropSibling p && String.eqb (pos_parentId p) (pos_parentId cur).

(** Invariants of the loops, one per function: what the recursive call
    on a block's [innerBlocks] does when the id is not below the block,
    and when it is. *)
Definition remove_inner_absent (id : string) (b : block) : Prop :=
  id ∉ tree_ids (innerBlocks b) ->
  remove_inner id b = Removed (innerBlocks b) empty_string.

Definition remove_inner_present (id : string) (b : block) : Prop :=
  NoDup (tree_ids (innerBlocks b)) ->
  id ∈ tree_ids (innerBlocks b) ->
  exists inner' rp,
    remove_inner id b = Removed inner' rp /\
    removed_at id (clientId b) (innerBlocks b) inner' rp.

Definition add_inner_absent (id : string) (item : block) (after : bool)
  (b : block) : Prop :=
  id ∉ tree_ids (innerBlocks b) ->
  add_inner id item after b = Added (innerBlocks b) empty_string (-1).

Definition add_inner_present (id : string) (item : block) (after : bool)
  (b : block) : Prop :=
  NoDup (tree_ids (innerBlocks b)) ->
  id ∈ tree_ids (innerBlocks b) ->
  exists inner' i pid,
    add_inner id item after b = Added inner' pid i /\
    inserted_at id item after (clientId b) (innerBlocks b) inner' i pid.

Definition addChild_inner_absent (id : string) (item : block) (b : block)
  : Prop :=
  id ∉ tree_ids (innerBlocks b) ->
  addChild_inner id item b = innerBlocks b.

Definition addChild_inner_present (id : string) (item : block) (b : block)
  : Prop :=
  NoDup (tree_ids (innerBlocks b)) ->
  id ∈ tree_ids (innerBlocks b) ->
  nested_at id item (innerBlocks b) (addChild_inner id item b).

(** ** Sample inputs *)

Definition leaf (id : string) : block := Block id false false [].

(** [A], [P] with children [X] and [Y], [C]. *)
Definition sample_tree : list block :=
  [leaf "A"; Block "P" true false [leaf "X"; leaf "Y"]; leaf "C"].

(** Five rows; rows 1 and 3 are siblings under [A], row 2 is a child of
    row 1. *)
Definition sample_registry : gmap Z position :=
  list_to_map
    [(0, Position "A" true true empty_string);
     (1, Position "B" true true "A");
     (2, Position "C" false true "B");
     (3, Position "D" false true "A");
     (4, Position "E" false true empty_string)].

(** A tree with a nested container, the registry of its rows and a
    drag of [Y] one row down and to the left, onto the container [K]. *)
Definition drag_tree : list block :=
  [Block "G" true false
     [Block "P" true false [leaf "X"; leaf "Y"]; Block "K" true false []];
   leaf "C"].

Definition drag_registry : gmap Z position :=
  list_to_map
    [(0, Position "G" true false empty_string);
     (1, Position "P" true false "G");
     (2, Position "X" false true "P");
     (3, Position "Y" false true "P");
     (4, Position "K" true false "G");
     (5, Position "C" false true empty_string)].

Definition drag_view : view := View drag_tree None drag_registry false [].


(** Three roots and a drag of [B] down past [C]. *)
Definition flat_tree : list block := [leaf "A"; leaf "B"; leaf "C"].

Definition flat_registry : gmap Z position :=
  list_to_map
    [(0, Position "A" false true empty_string);
     (1, Position "B" false true empty_string);
     (2, Position "C" false true empty_string)].

Definition flat_view : view := View flat_tree None flat_registry false [].

Definition drag_B_past_C : drag_tick :=
  DragTick (leaf "B") 20 0 1 (Some 5%Q).

(** A store with two childless blocks, [A] at reference 1 and [B] at
    reference 2. *)
Definition two_blocks : gmap positive Store.obj :=
  <[1%positive := Store.Obj "A" false false []]>
    (<[2%positive := Store.Obj "B" false false []]> ∅).

(** ** Expanded state *)

(** An action dispatched to the [expanded] reducer. *)
Record action := Action { action_type : string; action_clientId : string }.

(** The reducer [expanded]: [{ ...state, ...{ [ action.clientId ]: true } }]
    sets one key of the state object. *)
Definition expanded (state : gmap string bool) (a : action)
  : gmap string bool :=
  if String.eqb (action_type a) "expand"
  then <[action_clientId a := true]> state
  else if String.eqb (action_type a) "collapse"
  then <[action_clientId a := false]> state
  else state.

(** [! clientId] for a client id that may be [undefined]. *)
Definition no_clientId (clientId : option string) : bool :=
  match clientId with
  | None => true
  | Some c => String.eqb c empty_string
  end.

(** [expand] and [collapse]: nothing is dispatched without a client id. *)
Definition expand (expandedState : gmap string bool)
  (clientId : option string) : gmap string bool :=
  match clientId with
  | Some c => if no_clientId clientId then expandedState
              else expanded expandedState (Action "expand" c)
  | None => expandedState
  end.

Definition collapse (expandedState : gmap string bool)
  (clientId : option string) : gmap string bool :=
  match clientId with
  | Some c => if no_clientId clientId then expandedState
              else expanded expandedState (Action "collapse" c)
  | None => expandedState
  end.

(** ** The rows' handlers *)

(** The state of the list view that the rows' handlers act on:
    the drag state of [moveItem] and [dropItem], [draggingId] ([None]
    for its initial [false] and for [null]) and the expanded state. *)
Record list_view := ListView {
  lv_view : view;
  draggingId : option string;
  expandedState : gmap string bool
}.

(** The entry a row registers for itself in its effect:
    [block?.dropContainer ?? false] and [block?.dropSibling ?? false]
    are the block's flags. *)
Definition row_position (b : block) (parentId : string) : position :=
  Position (clientId b) (dropContainer b) (dropSibling b) parentId.

Definition registerRow (b : block) (parentId : string) (listPosition : Z)
  (st : list_view) : list_view :=
  let s := lv_view st in
  ListView
    (View (tree s) (lastTarget s)
          (setPosition (positions s) listPosition (row_position b parentId))
          (dropped s) (moveCalls s))
    (draggingId st) (expandedState st).

(** [onDragStart]: [setDraggingId( clientId ); collapse( clientId )]. *)
Definition onDragStart (clientId : string) (st : list_view) : list_view :=
  ListView (lv_view st) (Some clientId)
           (collapse (expandedState st) (Some clientId)).

(** The effect on [draggingId]:
    [if ( draggingId ) setTree( clone( clientIdsTree ) )]. *)
Definition resetTree (clientIdsTree : list block) (st : list_view)
  : list_view :=
  if no_clientId (draggingId st) then st
  else
    let s := lv_view st in
    ListView (View clientIdsTree (lastTarget s) (positions s) (dropped s)
                   (moveCalls s))
             (draggingId st) (expandedState st).

(** [onDragEnd]: [expand( clientId ); setDraggingId( null ); dropItem()]. *)
Definition onDragEnd (clientId : string) (st : list_view) : list_view :=
  ListView (dropItem (lv_view st)) None
           (expand (expandedState st) (Some clientId)).

(** [blockDrag]: only the row being dragged passes the tick on to
    [moveItem]. *)
Definition blockDrag (clientIdsTree : list block) (a : drag_tick)
  (st : list_view) : outcome list_view :=
  if bool_decide (draggingId st = Some (clientId (dt_block a))) then
    match moveItem clientIdsTree (lv_view st) a with
    | Returns s' => Returns (ListView s' (draggingId st) (expandedState st))
    | Throws => Throws
    | Diverges => Diverges
    end
  else Returns st.

(** The blocks handed to the branch for rendering:
    [draggingId || dropped ? tree : clientIdsTree]. *)
Definition blocksShown (clientIdsTree : list block) (st : list_view)
  : list block :=
  if negb (no_clientId (draggingId st)) || dropped (lv_view st)
  then tree (lv_view st) else clientIdsTree.

(** What can happen between [onDragStart] and [onDragEnd], in any
    order: the [blockDrag] callback of a row; the effect of a row, which
    registers it and runs again whenever [draggingId] or the row's
    [listPosition] changes; the effect on [draggingId], which resets the
    working tree. A callback or effect belongs to a render and sees the
    authoritative tree of that render. *)
Inductive drag_event : Type :=
  | RowDrag (clientIdsTree : list block) (a : drag_tick)
  | RowEffect (b : block) (parentId : string) (listPosition : Z)
  | TreeEffect (clientIdsTree : list block).

(** A callback that throws leaves the state as it was, and the next
    event runs on it. *)
Definition after_event (st : list_view) (e : drag_event) : list_view :=
  match e with
  | RowDrag clientIdsTree a =>
      match blockDrag clientIdsTree a st with
      | Returns st' => st'
      | _ => st
      end
  | RowEffect b parentId listPosition => registerRow b parentId listPosition st
  | TreeEffect clientIdsTree => resetTree clientIdsTree st
  end.

Definition after_events (events : list drag_event) (st : list_view)
  : list_view :=
  foldl after_event st events.

(** The timer callback of [dropItem], on the list view. *)
Definition onSettle (st : list_view) : list_view :=
  ListView (settle (lv_view st)) (draggingId st) (expandedState st).

(** What the events of a drag keep, while [c] is being dragged. *)
Definition drag_invariant (c : string) (st0 st : list_view) : Prop :=
  draggingId st = Some c /\
  expandedState st = expandedState st0 /\
  dropped (lv_view st) = dropped (lv_view st0) /\
  moveCalls (lv_view st) = moveCalls (lv_view st0) /\
  (lastTarget (lv_view st) = None \/
   exists t, lastTarget (lv_view st) = Some t /\ pt_clientId t = c).

(** Relative to a store [h0]: the objects of [h] that are not in [h0]
    and do not carry the client id [id] refer only to objects that are
    not in [h0] either. *)
Definition new_refer_to_new (h0 h : gmap positive Store.obj) (id : option string)
  : Prop :=
  forall l o,
    h !! l = Some o ->
    h0 !! l = None ->
    Some (Store.o_clientId o) = id \/
    Forall (fun c => h0 !! c = None) (Store.o_innerBlocks o).

(** ** Further sample inputs *)

Definition drag_C_past_B : drag_tick :=
  DragTick (leaf "C") (-20) 0 2 (Some (-5)%Q).

(** In [drag_tree]: [Y] dragged one row up and to the left, onto its
    sibling [X]; one row down and to the right, onto the container [K];
    and [C], the last row, dragged down and to the right. *)
Definition drag_Y_left_onto_X : drag_tick :=
  DragTick (leaf "Y") (-20) (-25) 3 (Some (-5)%Q).

Definition drag_Y_right_onto_K : drag_tick :=
  DragTick (leaf "Y") 20 25 3 (Some 5%Q).

Definition drag_C_past_the_end : drag_tick :=
  DragTick (leaf "C") 20 25 5 (Some 5%Q).

(** Two roots, with a row left behind in the registry by a block [Z]
    that is no longer in the tree. *)
Definition two_roots : list block := [leaf "A"; leaf "B"].

Definition stale_registry : gmap Z position :=
  list_to_map
    [(0, Position "A" false true empty_string);
     (1, Position "B" false true empty_string);
     (2, Position "Z" false true empty_string)].

Definition stale_view : view := View two_roots None stale_registry false [].

Definition drag_B_past_Z : drag_tick :=
  DragTick (leaf "B") 20 0 1 (Some 5%Q).

(** A tick of a row that is not in the registry. *)
Definition drag_unregistered : drag_tick :=
  DragTick (leaf "B") 20 0 (-1) (Some 5%Q).

Definition flat_list_view : list_view := ListView flat_view None ∅.





(** The events of a drag of [B] in [flat_tree]: the tree is reset, the
    rows register, [B] is dragged past [C], the rows register at their
    new positions, and [C]'s row receives a tick that is not for it. *)
Definition drag_B_events : list drag_event :=
  [TreeEffect flat_tree;
   RowEffect (Block "A" false true []) empty_string 0;
   RowEffect (Block "B" false true []) empty_string 1;
   RowEffect (Block "C" false true []) empty_string 2;
   RowDrag flat_tree drag_B_past_C;
   RowEffect (Block "C" false true []) empty_string 1;
   RowEffect (Block "B" false true []) empty_string 2;
   RowDrag flat_tree drag_C_past_B].

(** * Properties *)

(** ** Elementary facts *)

(** Induction on blocks, with the property available for all children. *)
Lemma block_nested_ind (P : block -> Prop) :
  (forall b, Forall P (innerBlocks b) -> P b) -> forall b, P b.
Proof.
  intros step. fix IH 1. intros [c dc ds inner]. apply step. simpl.
  induction inner as [|x inner IHinner]; constructor; [apply IH | exact IHinner].
Qed.

Lemma spread_id b : spread b = b.
Proof. by destruct b. Qed.

Lemma with_innerBlocks_id b : with_innerBlocks b (innerBlocks b) = b.
Proof. by destruct b. Qed.

Lemma clientId_with_innerBlocks b inner :
  clientId (with_innerBlocks b inner) = clientId b.
Proof. reflexivity. Qed.

Lemma nonempty_or_empty_l s : nonempty_or empty_string s = s.
Proof. reflexivity. Qed.

Lemma nonempty_or_empty_r s : nonempty_or s empty_string = s.
Proof.
  unfold nonempty_or. destruct (String.eqb_spec s empty_string); congruence.
Qed.

Lemma tree_ids_cons b t :
  tree_ids (b :: t) = clientId b :: tree_ids (innerBlocks b) ++ tree_ids t.
Proof. by destruct b. Qed.

Lemma tree_ids_app t1 t2 : tree_ids (t1 ++ t2) = tree_ids t1 ++ tree_ids t2.
Proof. apply flat_map_app. Qed.

Lemma block_ids_children b :
  block_ids b = clientId b :: tree_ids (innerBlocks b).
Proof. by destruct b. Qed.

Lemma has_children_nonempty (t : list block) :
  (0 <? Z.of_nat (length t)) = false -> t = [].
Proof. destruct t; [done | simpl; intros H; apply Z.ltb_ge in H; lia]. Qed.

(** What is known of the ids of [b :: t] when they are pairwise distinct. *)
Lemma NoDup_tree_ids_cons b t :
  NoDup (tree_ids (b :: t)) ->
  (clientId b ∉ tree_ids (innerBlocks b)) /\ (clientId b ∉ tree_ids t) /\
  NoDup (tree_ids (innerBlocks b)) /\ NoDup (tree_ids t) /\
  (forall x, x ∈ tree_ids (innerBlocks b) -> x ∉ tree_ids t).
Proof.
  rewrite tree_ids_cons, NoDup_cons, NoDup_app, not_elem_of_app.
  intros [[Hi Ht] (Hndi & Hdisj & Hndt)]. repeat split; assumption.
Qed.

(** ** removeItemFromTree *)

Section Remove.
Variable id : string.

Lemma remove_loop_absent parentId t :
  Forall (remove_inner_absent id) t ->
  id ∉ tree_ids t ->
  forall newTree rpid,
    remove_loop (remove_inner id) id parentId t newTree rpid
    = Removed (newTree ++ t) rpid.
Proof.
  induction 1 as [|b t Hb Ht IH]; intros Hnot newTree rpid; simpl.
  - by rewrite app_nil_r.
  - rewrite tree_ids_cons in Hnot.
    apply not_elem_of_cons in Hnot as [Hne Hnot].
    apply not_elem_of_app in Hnot as [Hin Hrest].
    destruct (String.eqb_spec (clientId b) id) as [Heq|_]; [done|]; simpl.
    destruct (0 <? Z.of_nat (length (innerBlocks b))).
    + rewrite (Hb Hin); simpl.
      rewrite with_innerBlocks_id, nonempty_or_empty_l, (IH Hrest).
      by rewrite <- app_assoc.
    + rewrite spread_id, (IH Hrest). by rewrite <- app_assoc.
Qed.

Lemma remove_inner_absent_all b : remove_inner_absent id b.
Proof.
  induction b as [b IH] using block_nested_ind. intros Hnot.
  destruct b as [c dc ds inner]; simpl in *.
  by rewrite (remove_loop_absent c inner IH Hnot).
Qed.

Lemma removeItemFromTree_absent t parentId :
  id ∉ tree_ids t ->
  removeItemFromTree t id parentId = Removed t empty_string.
Proof.
  intros Hnot. unfold removeItemFromTree.
  rewrite remove_loop_absent; [done | | done].
  apply Forall_forall. intros b _. apply remove_inner_absent_all.
Qed.

Lemma remove_loop_present parentId t :
  Forall (remove_inner_present id) t ->
  NoDup (tree_ids t) ->
  id ∈ tree_ids t ->
  forall newTree,
  exists t' rp,
    remove_loop (remove_inner id) id parentId t newTree empty_string
    = Removed t' rp /\
    removed_at id parentId (newTree ++ t) t' rp.
Proof.
  induction 1 as [|b t Hb Ht IH]; intros Hnd Hin newTree.
  - by apply elem_of_nil in Hin.
  - destruct (NoDup_tree_ids_cons _ _ Hnd) as (Hbi & Hbt & Hndi & Hndt & Hdisj).
    simpl. destruct (String.eqb_spec (clientId b) id) as [Heq|Hne]; simpl.
    + (* the block itself *)
      exists (newTree ++ t), parentId. split; [|by constructor].
      apply remove_loop_absent; [|by rewrite <- Heq].
      apply Forall_forall. intros ? _. apply remove_inner_absent_all.
    + rewrite tree_ids_cons in Hin.
      apply elem_of_cons in Hin as [Hin|Hin]; [congruence|].
      apply elem_of_app in Hin as [Hin|Hin].
      * (* below the block *)
        destruct (0 <? Z.of_nat (length (innerBlocks b))) eqn:Hlen;
          [|apply has_children_nonempty in Hlen; rewrite Hlen in Hin;
            by apply elem_of_nil in Hin].
        destruct (Hb Hndi Hin) as (inner' & rp & -> & Hrem); simpl.
        exists (newTree ++ with_innerBlocks b inner' :: t), rp. split.
        -- rewrite nonempty_or_empty_r, remove_loop_absent.
           ++ by rewrite <- app_assoc.
           ++ apply Forall_forall. intros ? _. apply remove_inner_absent_all.
           ++ by apply Hdisj.
        -- by constructor.
      * (* further along *)
        assert (Hnin : id ∉ tree_ids (innerBlocks b)).
        { intros Hin'. by apply (Hdisj _ Hin'). }
        assert (Hstep : forall rest acc,
                   (if 0 <? Z.of_nat (length (innerBlocks b))
                    then remove_loop (remove_inner id) id parentId rest
                           (acc ++ [with_innerBlocks b
                                      (r_newTree (remove_inner id b))])
                           (nonempty_or (removeParentId (remove_inner id b))
                                        empty_string)
                    else remove_loop (remove_inner id) id parentId rest
                           (acc ++ [spread b]) empty_string)
                   = remove_loop (remove_inner id) id parentId rest
                       (acc ++ [b]) empty_string).
        { intros rest acc. destruct (0 <? _); [|by rewrite spread_id].
          rewrite (remove_inner_absent_all b Hnin); simpl.
          by rewrite with_innerBlocks_id. }
        rewrite Hstep.
        destruct (IH Hndt Hin (newTree ++ [b])) as (t' & rp & Heq & Hrem).
        exists t', rp. split; [done|]. by rewrite <- app_assoc in Hrem.
Qed.

Lemma remove_inner_present_all b : remove_inner_present id b.
Proof.
  induction b as [b IH] using block_nested_ind. intros Hnd Hin.
  destruct b as [c dc ds inner]; simpl in *.
  destruct (remove_loop_present c inner IH Hnd Hin []) as (t' & rp & ? & ?).
  by exists t', rp.
Qed.

End Remove.

Lemma removeItemFromTree_present id t parentId :
  NoDup (tree_ids t) ->
  id ∈ tree_ids t ->
  removed_at id parentId t
    (r_newTree (removeItemFromTree t id parentId))
    (removeParentId (removeItemFromTree t id parentId)).
Proof.
  intros Hnd Hin. unfold removeItemFromTree.
  destruct (remove_loop_present id parentId t) with (newTree := @nil block)
    as (t' & rp & -> & Hrem); try done.
  apply Forall_forall. intros b _. apply remove_inner_present_all.
Qed.

(** Whatever the tree, no block with the removed id is left. *)
Section RemoveGone.
Variable id : string.

Lemma remove_loop_gone parentId t :
  Forall (fun b => id ∉ tree_ids (r_newTree (remove_inner id b))) t ->
  forall newTree rpid,
    id ∉ tree_ids newTree ->
    id ∉ tree_ids
           (r_newTree (remove_loop (remove_inner id) id parentId t newTree rpid)).
Proof.
  induction 1 as [|b t Hb Ht IH]; intros newTree rpid Hacc; simpl; [done|].
  destruct (String.eqb_spec (clientId b) id) as [Heq|Hne]; simpl.
  - by apply IH.
  - destruct (0 <? _) eqn:Hlen; apply IH; rewrite tree_ids_app, tree_ids_cons;
      simpl; rewrite app_nil_r, not_elem_of_app, not_elem_of_cons.
    + done.
    + apply has_children_nonempty in Hlen. rewrite Hlen.
      split; [done|]. split; [congruence|apply not_elem_of_nil].
Qed.

Lemma remove_inner_gone b : id ∉ tree_ids (r_newTree (remove_inner id b)).
Proof.
  induction b as [b IH] using block_nested_ind.
  destruct b as [c dc ds inner]; simpl in *.
  apply remove_loop_gone; [done | apply not_elem_of_nil].
Qed.

Lemma removeItemFromTree_gone t parentId :
  id ∉ tree_ids (r_newTree (removeItemFromTree t id parentId)).
Proof.
  apply remove_loop_gone; [|apply not_elem_of_nil].
  apply Forall_forall. intros b _. apply remove_inner_gone.
Qed.

End RemoveGone.

(** ** addItemToTree *)

Lemma inserted_at_index_nonneg id item after parent t t' i pid :
  inserted_at id item after parent t t' i pid -> 0 <= i.
Proof. induction 1; [destruct after; lia | done]. Qed.

Section Add.
Variables (id : string) (item : block) (after : bool).

Lemma add_loop_absent parentId t :
  Forall (add_inner_absent id item after) t ->
  id ∉ tree_ids t ->
  forall newTree tidx tid,
    -1 <= tidx ->
    add_loop (add_inner id item after) id item after parentId t
             newTree tidx tid
    = Added (newTree ++ t) tid tidx.
Proof.
  induction 1 as [|b t Hb Ht IH]; intros Hnot newTree tidx tid Hidx; simpl.
  - by rewrite app_nil_r.
  - rewrite tree_ids_cons in Hnot.
    apply not_elem_of_cons in Hnot as [Hne Hnot].
    apply not_elem_of_app in Hnot as [Hin Hrest].
    destruct (String.eqb_spec (clientId b) id) as [Heq|_]; [done|].
    destruct (0 <? Z.of_nat (length (innerBlocks b))).
    + rewrite (Hb Hin); simpl.
      rewrite with_innerBlocks_id, nonempty_or_empty_l, Z.max_l by lia.
      rewrite (IH Hrest) by done. by rewrite <- app_assoc.
    + rewrite spread_id, (IH Hrest) by done. by rewrite <- app_assoc.
Qed.

Lemma add_inner_absent_all b : add_inner_absent id item after b.
Proof.
  induction b as [b IH] using block_nested_ind. intros Hnot.
  destruct b as [c dc ds inner]; simpl in *.
  by rewrite (add_loop_absent c inner IH Hnot).
Qed.

Lemma add_loop_absent_all parentId t newTree tidx tid :
  id ∉ tree_ids t ->
  -1 <= tidx ->
  add_loop (add_inner id item after) id item after parentId t
           newTree tidx tid
  = Added (newTree ++ t) tid tidx.
Proof.
  intros. apply add_loop_absent; try done.
  apply Forall_forall. intros b _. apply add_inner_absent_all.
Qed.

Lemma add_loop_present parentId t :
  Forall (add_inner_present id item after) t ->
  NoDup (tree_ids t) ->
  id ∈ tree_ids t ->
  forall newTree,
  exists t' i pid,
    add_loop (add_inner id item after) id item after parentId t
             newTree (-1) empty_string
    = Added t' pid i /\
    inserted_at id item after parentId (newTree ++ t) t' i pid.
Proof.
  induction 1 as [|b t Hb Ht IH]; intros Hnd Hin newTree.
  - by apply elem_of_nil in Hin.
  - destruct (NoDup_tree_ids_cons _ _ Hnd) as (Hbi & Hbt & Hndi & Hndt & Hdisj).
    simpl. destruct (String.eqb_spec (clientId b) id) as [Heq|Hne].
    + (* the anchor itself *)
      rewrite !spread_id.
      eexists _, _, _. split; [|by apply (inserted_here id item after)].
      rewrite !add_loop_absent_all by (rewrite <- ?Heq; done || lia).
      case after; rewrite <- !app_assoc; simpl; f_equal; lia.
    + rewrite tree_ids_cons in Hin.
      apply elem_of_cons in Hin as [Hin|Hin]; [congruence|].
      apply elem_of_app in Hin as [Hin|Hin].
      * (* the anchor is below the block *)
        destruct (0 <? Z.of_nat (length (innerBlocks b))) eqn:Hlen;
          [|apply has_children_nonempty in Hlen; rewrite Hlen in Hin;
            by apply elem_of_nil in Hin].
        destruct (Hb Hndi Hin) as (inner' & i & pid & -> & Hins); simpl.
        pose proof (inserted_at_index_nonneg _ _ _ _ _ _ _ _ Hins) as Hi.
        exists (newTree ++ with_innerBlocks b inner' :: t), i, pid. split.
        -- rewrite nonempty_or_empty_r, Z.max_r by lia.
           rewrite add_loop_absent_all by (by apply Hdisj || lia).
           by rewrite <- app_assoc.
        -- by constructor.
      * (* the anchor is further along *)
        assert (Hnin : id ∉ tree_ids (innerBlocks b)).
        { intros Hin'. by apply (Hdisj _ Hin'). }
        assert (Hstep : forall rest acc,
                   (if 0 <? Z.of_nat (length (innerBlocks b))
                    then add_loop (add_inner id item after) id item after
                           parentId rest
                           (acc ++ [with_innerBlocks b
                              (a_newTree (add_inner id item after b))])
                           (Z.max (-1) (targetIndex (add_inner id item after b)))
                           (nonempty_or (targetId (add_inner id item after b))
                                        empty_string)
                    else add_loop (add_inner id item after) id item after
                           parentId rest (acc ++ [spread b]) (-1) empty_string)
                   = add_loop (add_inner id item after) id item after
                       parentId rest (acc ++ [b]) (-1) empty_string).
        { intros rest acc. destruct (0 <? _); [|by rewrite spread_id].
          rewrite (add_inner_absent_all b Hnin); simpl.
          by rewrite with_innerBlocks_id. }
        rewrite Hstep.
        destruct (IH Hndt Hin (newTree ++ [b])) as (t' & i & pid & Heq & Hins).
        exists t', i, pid. split; [done|]. by rewrite <- app_assoc in Hins.
Qed.

Lemma add_inner_present_all b : add_inner_present id item after b.
Proof.
  induction b as [b IH] using block_nested_ind. intros Hnd Hin.
  destruct b as [c dc ds inner]; simpl in *.
  destruct (add_loop_present c inner IH Hnd Hin []) as (t' & i & pid & ? & ?).
  by exists t', i, pid.
Qed.

Lemma addItemToTree_present t parentId :
  NoDup (tree_ids t) ->
  id ∈ tree_ids t ->
  inserted_at id item after parentId t
    (a_newTree (addItemToTree t id item after parentId))
    (targetIndex (addItemToTree t id item after parentId))
    (targetId (addItemToTree t id item after parentId)).
Proof.
  intros Hnd Hin. unfold addItemToTree.
  destruct (add_loop_present parentId t) with (newTree := @nil block)
    as (t' & i & pid & -> & Hins); try done.
  apply Forall_forall. intros b _. apply add_inner_present_all.
Qed.

Lemma addItemToTree_absent t parentId :
  id ∉ tree_ids t ->
  addItemToTree t id item after parentId = Added t empty_string (-1).
Proof. intros Hnot. unfold addItemToTree. by rewrite add_loop_absent_all. Qed.

End Add.

(** ** Client ids before and after *)

Lemma find_first_app f l1 l2 :
  find_first f (l1 ++ l2)
  = match find_first f l1 with Some x => Some x | None => find_first f l2 end.
Proof.
  induction l1 as [|b l1 IH]; simpl; [done|]. by destruct (f b).
Qed.

Lemma find_node_cons id b t :
  find_node id (b :: t)
  = match find_block id b with Some x => Some x | None => find_node id t end.
Proof. reflexivity. Qed.

Lemma find_block_unfold id b :
  find_block id b
  = if String.eqb (clientId b) id then Some b else find_node id (innerBlocks b).
Proof. by destruct b. Qed.

Section Find.
Variable id : string.

Lemma find_node_absent_aux t :
  Forall (fun b => id ∉ block_ids b -> find_block id b = None) t ->
  id ∉ tree_ids t -> find_node id t = None.
Proof.
  induction 1 as [|b t Hb Ht IH]; intros Hnot; [done|].
  rewrite tree_ids_cons, not_elem_of_cons, not_elem_of_app in Hnot.
  rewrite find_node_cons, Hb; [apply IH; tauto|].
  rewrite block_ids_children, not_elem_of_cons. tauto.
Qed.

Lemma find_block_absent b : id ∉ block_ids b -> find_block id b = None.
Proof.
  induction b as [b IH] using block_nested_ind. intros Hnot.
  rewrite block_ids_children, not_elem_of_cons in Hnot.
  rewrite find_block_unfold.
  destruct Hnot as [Hne Hnot].
  destruct (String.eqb_spec (clientId b) id); [congruence|].
  by apply find_node_absent_aux.
Qed.

Lemma find_node_absent t : id ∉ tree_ids t -> find_node id t = None.
Proof.
  apply find_node_absent_aux, Forall_forall. intros b _.
  apply find_block_absent.
Qed.

Lemma find_node_Some_aux t x :
  Forall (fun b => forall y, find_block id b = Some y ->
                             id ∈ block_ids b /\ clientId y = id) t ->
  find_node id t = Some x -> id ∈ tree_ids t /\ clientId x = id.
Proof.
  induction 1 as [|b t Hb Ht IH]; intros Hfind; [done|].
  rewrite find_node_cons in Hfind.
  change (tree_ids (b :: t)) with (block_ids b ++ tree_ids t).
  rewrite elem_of_app.
  destruct (find_block id b) as [y|] eqn:E.
  - injection Hfind as ->. destruct (Hb _ eq_refl). tauto.
  - destruct (IH Hfind). tauto.
Qed.

Lemma find_block_Some b x :
  find_block id b = Some x -> id ∈ block_ids b /\ clientId x = id.
Proof.
  revert x. induction b as [b IH] using block_nested_ind. intros x.
  rewrite find_block_unfold, block_ids_children, elem_of_cons.
  destruct (String.eqb_spec (clientId b) id) as [Heq|Hne].
  - intros [= <-]. split; [by left | done].
  - intros Hfind. destruct (find_node_Some_aux _ _ IH Hfind).
    split; [by right | done].
Qed.

Lemma find_node_Some t x :
  find_node id t = Some x -> id ∈ tree_ids t /\ clientId x = id.
Proof.
  apply find_node_Some_aux, Forall_forall. intros b _ y.
  apply find_block_Some.
Qed.

End Find.

Lemma perm_into_middle {A} (extra l1 : list A) (c : A) (inner l2 : list A) :
  extra ++ l1 ++ c :: inner ++ l2 ≡ₚ l1 ++ c :: (extra ++ inner) ++ l2.
Proof.
  rewrite <- app_assoc, Permutation_app_swap_app.
  apply Permutation_app_head. symmetry. apply Permutation_middle.
Qed.

Lemma inserted_at_ids id item after parent t t' i pid :
  inserted_at id item after parent t t' i pid ->
  tree_ids t' ≡ₚ block_ids item ++ tree_ids t.
Proof.
  induction 1 as [parent l1 x l2 Hx | parent l1 p l2 inner' i pid Hins IH].
  - rewrite !tree_ids_app.
    assert (Hmid : tree_ids (if after then [x; item] else [item; x])
                   ≡ₚ block_ids item ++ block_ids x).
    { destruct after; unfold tree_ids; simpl; rewrite app_nil_r;
        [apply Permutation_app_comm | done]. }
    rewrite Hmid, <- app_assoc.
    change (tree_ids (x :: l2)) with (block_ids x ++ tree_ids l2).
    apply Permutation_app_swap_app.
  - rewrite !tree_ids_app, !tree_ids_cons. simpl. rewrite IH.
    symmetry. apply perm_into_middle.
Qed.

Lemma removed_at_find id parent t t' rp :
  NoDup (tree_ids t) ->
  removed_at id parent t t' rp ->
  exists x, find_node id t = Some x /\
            tree_ids t ≡ₚ block_ids x ++ tree_ids t'.
Proof.
  intros Hnd Hrem. revert Hnd.
  induction Hrem as [parent l1 x l2 Hx | parent l1 p l2 inner' rp Hrem IH];
    intros Hnd.
  - exists x. rewrite tree_ids_app in Hnd.
    apply NoDup_app in Hnd as (_ & Hdisj & _).
    assert (Hl1 : id ∉ tree_ids l1).
    { intros Hin. apply (Hdisj _ Hin). rewrite tree_ids_cons, Hx. by left. }
    split.
    + unfold find_node. rewrite find_first_app.
      fold (find_node id l1). rewrite (find_node_absent _ _ Hl1). simpl.
      rewrite find_block_unfold.
      by destruct (String.eqb_spec (clientId x) id).
    + rewrite !tree_ids_app.
      change (tree_ids (x :: l2)) with (block_ids x ++ tree_ids l2).
      apply Permutation_app_swap_app.
  - rewrite tree_ids_app in Hnd.
    apply NoDup_app in Hnd as (_ & Hdisj & Hnd).
    destruct (NoDup_tree_ids_cons _ _ Hnd) as (Hpi & _ & Hndi & _ & _).
    destruct (IH Hndi) as (x & Hfind & Hperm). exists x.
    destruct (find_node_Some _ _ _ Hfind) as [Hin _].
    assert (Hl1 : id ∉ tree_ids l1).
    { intros Hin'. apply (Hdisj _ Hin'). rewrite tree_ids_cons.
      right. apply elem_of_app. by left. }
    split.
    + unfold find_node. rewrite find_first_app.
      fold (find_node id l1). rewrite (find_node_absent _ _ Hl1). simpl.
      rewrite find_block_unfold.
      destruct (String.eqb_spec (clientId p) id) as [Heq|_];
        [by rewrite Heq in Hpi|].
      by rewrite Hfind.
    + rewrite !tree_ids_app, !tree_ids_cons. simpl. rewrite Hperm.
      symmetry. apply perm_into_middle.
Qed.

(** ** The tree functions meet their description *)

(** Decidable side conditions on concrete inputs are settled by
    evaluation. *)
Ltac by_evaluation := apply (bool_decide_unpack _); vm_compute; exact I.

(** C8: for every tree [t] and every id that is the client id of no block
    of [t], [removeItemFromTree] returns a tree equal to [t] and the
    empty string as the removed block's parent id. *)
Theorem remove_nonexistent_is_noop (t : list block) (id : string) :
  id ∉ tree_ids t ->
  removeItemFromTree t id empty_string = Removed t empty_string.
Proof. apply removeItemFromTree_absent. Qed.

Lemma remove_nonexistent_is_noop_witness :
  ("nonexistent" ∉ tree_ids sample_tree) /\
  removeItemFromTree sample_tree "nonexistent" empty_string
  = Removed sample_tree empty_string.
Proof.
  assert (H : "nonexistent" ∉ tree_ids sample_tree) by by_evaluation.
  split; [exact H | exact (remove_nonexistent_is_noop sample_tree _ H)].
Defined.

(** C7: in a tree with pairwise distinct client ids that has a block with
    client id [id], [removeItemFromTree] leaves that block (and with it
    everything below it) out of the sibling sequence it was in, keeps all
    other blocks where they were, and returns the client id of the
    block's parent, the empty string for a root block. No block with
    that id is left in the result. *)
Theorem remove_omits_node_and_reports_parent (t : list block) (id : string) :
  NoDup (tree_ids t) ->
  id ∈ tree_ids t ->
  removed_at id empty_string t
    (r_newTree (removeItemFromTree t id empty_string))
    (removeParentId (removeItemFromTree t id empty_string))
  /\ id ∉ tree_ids (r_newTree (removeItemFromTree t id empty_string)).
Proof.
  intros Hnd Hin. split.
  - by apply removeItemFromTree_present.
  - apply removeItemFromTree_gone.
Qed.

Lemma remove_omits_node_and_reports_parent_witness :
  removeItemFromTree sample_tree "X" empty_string
  = Removed [leaf "A"; Block "P" true false [leaf "Y"]; leaf "C"] "P"
  /\ removed_at "X" empty_string sample_tree
       (r_newTree (removeItemFromTree sample_tree "X" empty_string))
       (removeParentId (removeItemFromTree sample_tree "X" empty_string)).
Proof.
  split; [reflexivity|].
  apply (remove_omits_node_and_reports_parent sample_tree "X"); by_evaluation.
Defined.

(** C6: in a tree with pairwise distinct client ids, [addItemToTree] puts
    the item right after (or right before, as [insertAfter] says) the
    block whose client id is the anchor, in that block's sibling
    sequence, and returns the item's index in that sequence together
    with the client id of the block owning the sequence (empty for the
    roots). When no block has the anchor id it returns the tree as it
    was, index -1 and the empty target id. *)
Theorem addItemToTree_inserts_next_to_anchor
  (t : list block) (id : string) (item : block) (insertAfter : bool) :
  (NoDup (tree_ids t) ->
   id ∈ tree_ids t ->
   inserted_at id item insertAfter empty_string t
     (a_newTree (addItemToTree t id item insertAfter empty_string))
     (targetIndex (addItemToTree t id item insertAfter empty_string))
     (targetId (addItemToTree t id item insertAfter empty_string)))
  /\ (id ∉ tree_ids t ->
      addItemToTree t id item insertAfter empty_string
      = Added t empty_string (-1)).
Proof.
  split.
  - apply addItemToTree_present.
  - apply addItemToTree_absent.
Qed.

Lemma addItemToTree_inserts_next_to_anchor_witness :
  addItemToTree sample_tree "Y" (leaf "N") true empty_string
  = Added [leaf "A"; Block "P" true false [leaf "X"; leaf "Y"; leaf "N"];
           leaf "C"] "P" 2
  /\ inserted_at "Y" (leaf "N") true empty_string sample_tree
       (a_newTree (addItemToTree sample_tree "Y" (leaf "N") true empty_string))
       (targetIndex (addItemToTree sample_tree "Y" (leaf "N") true empty_string))
       (targetId (addItemToTree sample_tree "Y" (leaf "N") true empty_string))
  /\ addItemToTree sample_tree "Z" (leaf "N") true empty_string
     = Added sample_tree empty_string (-1).
Proof.
  split; [reflexivity|].
  destruct (addItemToTree_inserts_next_to_anchor sample_tree "Y" (leaf "N") true)
    as [Hpresent _].
  destruct (addItemToTree_inserts_next_to_anchor sample_tree "Z" (leaf "N") true)
    as [_ Habsent].
  split; [apply Hpresent | apply Habsent]; by_evaluation.
Defined.

(** C2: let [t] be a tree with pairwise distinct client ids and [node]
    its block with client id [x]. Removing [x] and then inserting [node]
    next to any anchor found in the remaining tree gives a tree with the
    same client ids as [t], each once. *)
Theorem remove_then_insert_keeps_ids
  (t : list block) (x anchor : string) (node : block) (insertAfter : bool) :
  NoDup (tree_ids t) ->
  find_node x t = Some node ->
  anchor ∈ tree_ids (r_newTree (removeItemFromTree t x empty_string)) ->
  tree_ids
    (a_newTree
       (addItemToTree (r_newTree (removeItemFromTree t x empty_string))
                      anchor node insertAfter empty_string))
  ≡ₚ tree_ids t
  /\ NoDup
       (tree_ids
          (a_newTree
             (addItemToTree (r_newTree (removeItemFromTree t x empty_string))
                            anchor node insertAfter empty_string))).
Proof.
  intros Hnd Hfind Hanchor.
  destruct (find_node_Some _ _ _ Hfind) as [Hin _].
  pose proof (removeItemFromTree_present x t empty_string Hnd Hin) as Hrem.
  destruct (removed_at_find _ _ _ _ _ Hnd Hrem) as (node' & Hfind' & Hperm).
  assert (node' = node) as -> by congruence.
  assert (Hnd' : NoDup (tree_ids (r_newTree (removeItemFromTree t x empty_string)))).
  { rewrite Hperm in Hnd. by apply NoDup_app in Hnd as (_ & _ & ?). }
  pose proof (addItemToTree_present anchor node insertAfter _ empty_string
                Hnd' Hanchor) as Hins.
  apply inserted_at_ids in Hins.
  assert (Hall : tree_ids
            (a_newTree
               (addItemToTree (r_newTree (removeItemFromTree t x empty_string))
                              anchor node insertAfter empty_string))
          ≡ₚ tree_ids t) by (by rewrite Hins, Hperm).
  split; [done | by rewrite Hall].
Qed.

Lemma remove_then_insert_keeps_ids_witness :
  tree_ids
    (a_newTree
       (addItemToTree (r_newTree (removeItemFromTree sample_tree "P" empty_string))
                      "C" (Block "P" true false [leaf "X"; leaf "Y"]) true
                      empty_string))
  = ["A"; "C"; "P"; "X"; "Y"]
  /\ ["A"; "C"; "P"; "X"; "Y"] ≡ₚ tree_ids sample_tree.
Proof.
  split; [reflexivity|].
  change ["A"; "C"; "P"; "X"; "Y"] with
    (tree_ids
       (a_newTree
          (addItemToTree
             (r_newTree (removeItemFromTree sample_tree "P" empty_string))
             "C" (Block "P" true false [leaf "X"; leaf "Y"]) true
             empty_string))).
  apply (remove_then_insert_keeps_ids sample_tree "P" "C"
           (Block "P" true false [leaf "X"; leaf "Y"]) true);
    [by_evaluation | reflexivity | by_evaluation].
Defined.

(** ** findFirstValidSibling *)

Lemma Qltb_lt x y : Qltb x y = true <-> (x < y)%Q.
Proof.
  unfold Qltb. rewrite negb_true_iff, <- not_true_iff_false, Qle_bool_iff.
  split; [apply Qnot_le_lt | apply Qlt_not_le].
Qed.

Lemma Qltb_ge x y : Qltb x y = false <-> (y <= x)%Q.
Proof.
  unfold Qltb. by rewrite negb_false_iff, Qle_bool_iff.
Qed.

Lemma Qgtb_gt x y : Qgtb x y = true <-> (y < x)%Q.
Proof. apply Qltb_lt. Qed.

Section Walk.
Variable it : Z.

(** The loop only reads the rows ahead of it. *)
Lemma sibling_walk_ext (m m' : gmap Z position) cur fuel : forall index,
  (forall j : nat, m !! (index + Z.of_nat j * it)
                   = m' !! (index + Z.of_nat j * it)) ->
  sibling_walk fuel m cur it index = sibling_walk fuel m' cur it index.
Proof.
  induction fuel as [|fuel IH]; intros index Hsame; simpl; [done|].
  specialize (Hsame O) as H0. simpl in H0. rewrite Z.add_0_r in H0.
  rewrite <- H0.
  assert (Hnext : sibling_walk fuel m cur it (index + it)
                  = sibling_walk fuel m' cur it (index + it)).
  { apply IH. intros j. specialize (Hsame (S j)).
    by replace (index + it + Z.of_nat j * it)
      with (index + Z.of_nat (S j) * it) by lia. }
  by rewrite Hnext.
Qed.

(** One turn per row at most: the loop returns or throws. *)
Lemma sibling_walk_terminates cur fuel :
  it <> 0 ->
  forall (m : gmap Z position) index,
    (size m < fuel)%nat ->
    sibling_walk fuel m cur it index <> Diverges.
Proof.
  intros Hit. induction fuel as [|fuel IH]; intros m index Hsize; [lia|].
  simpl. destruct (m !! index) as [p|] eqn:Hp; [|done].
  assert (Hnext : sibling_walk fuel m cur it (index + it) <> Diverges).
  { rewrite (sibling_walk_ext m (delete index m)).
    - apply IH. rewrite map_size_delete_Some by done.
      pose proof (map_size_ne_0_lookup_2 m index (mk_is_Some _ _ Hp)). lia.
    - intros j. rewrite lookup_delete_ne; [done|]. intros Heq.
      assert (Hmul : (1 + Z.of_nat j) * it = 0) by lia.
      apply Z.mul_eq_0 in Hmul as [?|?]; lia. }
  destruct (pos_dropSibling p); [|done].
  destruct cur as [c|]; [|done].
  by destruct (String.eqb _ _).
Qed.

(** With a row at the current position the loop does not throw, and
    what it returns is the first row ahead that passes the test, or
    nothing if an empty slot comes first. *)
Lemma sibling_walk_spec (m : gmap Z position) (c : position) fuel :
  forall index r,
    sibling_walk fuel m (Some c) it index = Returns r ->
    exists k : nat,
      (forall j : nat, (j < k)%nat ->
         exists p, m !! (index + Z.of_nat j * it) = Some p /\
                   qualifies c p = false) /\
      match m !! (index + Z.of_nat k * it) with
      | Some p => qualifies c p = true /\
                  r = Some (p, index + Z.of_nat k * it)
      | None => r = None
      end.
Proof.
  induction fuel as [|fuel IH]; intros index r; simpl; [done|].
  destruct (m !! index) as [p|] eqn:Hp.
  - destruct (qualifies c p) eqn:Hq.
    + unfold qualifies in Hq. apply andb_true_iff in Hq as [Hds Hpar].
      rewrite Hds, Hpar. intros [= <-]. exists O. simpl.
      rewrite Z.add_0_r, Hp. split; [lia|].
      unfold qualifies. by rewrite Hds, Hpar.
    + intros Hwalk.
      assert (Hrec : sibling_walk fuel m (Some c) it (index + it) = Returns r).
      { unfold qualifies in Hq. destruct (pos_dropSibling p); [|done].
        simpl in Hq. by rewrite Hq in Hwalk. }
      destruct (IH _ _ Hrec) as (k & Hskip & Hend). exists (S k).
      replace (index + Z.of_nat (S k) * it)
        with (index + it + Z.of_nat k * it) by lia.
      split; [|done]. intros [|j] Hj.
      * exists p. simpl. by rewrite Z.add_0_r.
      * destruct (Hskip j) as (q & Hq' & Hnq); [lia|]. exists q.
        by replace (index + Z.of_nat (S j) * it)
          with (index + it + Z.of_nat j * it) by lia.
  - intros [= <-]. exists O. simpl. rewrite Z.add_0_r, Hp.
    split; [lia | done].
Qed.

Lemma sibling_walk_no_throw (m : gmap Z position) (c : position) fuel :
  forall index, sibling_walk fuel m (Some c) it index <> Throws.
Proof.
  induction fuel as [|fuel IH]; intros index; simpl; [done|].
  destruct (m !! index) as [p|]; [|done].
  destruct (pos_dropSibling p); [|apply IH].
  destruct (String.eqb _ _); [done | apply IH].
Qed.

(** A returned index is a whole number of steps ahead of the start. *)
Lemma sibling_walk_index (m : gmap Z position) cur fuel :
  forall index p i,
    sibling_walk fuel m cur it index = Returns (Some (p, i)) ->
    exists k : nat, i = index + Z.of_nat k * it.
Proof.
  induction fuel as [|fuel IH]; intros index p i; simpl; [done|].
  destruct (m !! index) as [q|]; [|done].
  assert (Hrec : sibling_walk fuel m cur it (index + it)
                 = Returns (Some (p, i)) ->
                 exists k : nat, i = index + Z.of_nat k * it).
  { intros Hrec. destruct (IH _ _ _ Hrec) as [k ->]. exists (S k). lia. }
  destruct (pos_dropSibling q); [|done].
  destruct cur as [c|]; [|done].
  destruct (String.eqb _ _); [|done].
  intros [= <- <-]. exists O. lia.
Qed.

End Walk.

Lemma findFirstValidSibling_terminates positions current velocity :
  findFirstValidSibling positions current velocity <> Diverges.
Proof.
  unfold findFirstValidSibling. apply sibling_walk_terminates; [|lia].
  by destruct (Qgtb velocity 0).
Qed.

Lemma findFirstValidSibling_returns positions current velocity cur :
  positions !! current = Some cur ->
  exists r, findFirstValidSibling positions current velocity = Returns r.
Proof.
  intros Hcur.
  pose proof (findFirstValidSibling_terminates positions current velocity) as Ht.
  unfold findFirstValidSibling in *. rewrite Hcur in *.
  destruct (sibling_walk _ _ _ _ _) as [r| |] eqn:E; [by exists r | | done].
  by apply sibling_walk_no_throw in E.
Qed.

(** C4: with a row [cur] at the current position, [findFirstValidSibling]
    steps through the registry one index at a time, upwards for a
    positive velocity and downwards for a negative one, passing over
    every row that is not both marked [dropSibling] and of the same
    [parentId] as [cur]; it returns the first row that is, with its
    index, and it returns the pair of nulls as soon as it comes to an
    index with no row. *)
Theorem findFirstValidSibling_finds_first_valid
  (positions : gmap Z position) (current : Z) (velocity : Q)
  (cur : position) (iterate : Z) :
  positions !! current = Some cur ->
  ((0 < velocity)%Q /\ iterate = 1) \/ ((velocity < 0)%Q /\ iterate = -1) ->
  exists k : nat,
    (0 < k)%nat /\
    (forall j : nat, (0 < j < k)%nat ->
       exists p, positions !! (current + Z.of_nat j * iterate) = Some p /\
                 qualifies cur p = false) /\
    match positions !! (current + Z.of_nat k * iterate) with
    | Some p =>
        qualifies cur p = true /\
        findFirstValidSibling positions current velocity
        = Returns (Some (p, current + Z.of_nat k * iterate))
    | None => findFirstValidSibling positions current velocity = Returns None
    end.
Proof.
  intros Hcur Hdir.
  destruct (findFirstValidSibling_returns positions current velocity cur Hcur)
    as [r Hr].
  rewrite Hr. unfold findFirstValidSibling in Hr. rewrite Hcur in Hr.
  assert (Hit : (if Qgtb velocity 0 then 1 else -1) = iterate).
  { destruct Hdir as [[Hv ->]|[Hv ->]].
    - apply Qgtb_gt in Hv. by rewrite Hv.
    - destruct (Qgtb velocity 0) eqn:E; [|done].
      apply Qgtb_gt in E. exfalso. apply (Qlt_irrefl 0).
      by apply Qlt_trans with velocity. }
  rewrite Hit in Hr. clear Hit.
  apply sibling_walk_spec in Hr as (k & Hskip & Hend).
  exists (S k). split; [lia|].
  replace (current + Z.of_nat (S k) * iterate)
    with (current + iterate + Z.of_nat k * iterate) by lia.
  split.
  - intros [|j] Hj; [lia|]. destruct (Hskip j) as (p & Hp & Hq); [lia|].
    exists p. by replace (current + Z.of_nat (S j) * iterate)
      with (current + iterate + Z.of_nat j * iterate) by lia.
  - destruct (positions !! (current + iterate + Z.of_nat k * iterate)) as [q|];
      [|by subst].
    by destruct Hend as [Hq ->].
Qed.

Lemma findFirstValidSibling_finds_first_valid_witness :
  findFirstValidSibling sample_registry 1 1
  = Returns (Some (Position "D" false true "A", 3))
  /\ findFirstValidSibling sample_registry 3 (-1)
     = Returns (Some (Position "B" true true "A", 1))
  /\ findFirstValidSibling sample_registry 4 1 = Returns None
  /\ exists k : nat,
      (0 < k)%nat /\
      (forall j : nat, (0 < j < k)%nat ->
         exists p, sample_registry !! (1 + Z.of_nat j * 1) = Some p /\
                   qualifies (Position "B" true true "A") p = false) /\
      match sample_registry !! (1 + Z.of_nat k * 1) with
      | Some p =>
          qualifies (Position "B" true true "A") p = true /\
          findFirstValidSibling sample_registry 1 1
          = Returns (Some (p, 1 + Z.of_nat k * 1))
      | None => findFirstValidSibling sample_registry 1 1 = Returns None
      end.
Proof.
  repeat (split; [vm_compute; reflexivity|]).
  apply (findFirstValidSibling_finds_first_valid sample_registry 1 1
           (Position "B" true true "A") 1).
  - vm_compute; reflexivity.
  - left. split; reflexivity.
Defined.

(** C10: whenever [findFirstValidSibling] returns a row, the index it
    returns with it is not the starting position: it is strictly greater
    for a positive velocity and strictly smaller for a negative one,
    whatever the row at the starting position is. *)
Theorem findFirstValidSibling_index_is_ahead
  (positions : gmap Z position) (current : Z) (velocity : Q)
  (p : position) (index : Z) :
  findFirstValidSibling positions current velocity = Returns (Some (p, index)) ->
  index <> current /\
  ((0 < velocity)%Q -> current < index) /\
  ((velocity < 0)%Q -> index < current).
Proof.
  unfold findFirstValidSibling. intros Hr.
  apply sibling_walk_index in Hr as [k ->].
  destruct (Qgtb velocity 0) eqn:E.
  - repeat split; try lia. intros Hneg. apply Qgtb_gt in E.
    exfalso. apply (Qlt_irrefl 0). by apply Qlt_trans with velocity.
  - repeat split; try lia. intros Hpos. apply Qgtb_gt in Hpos. congruence.
Qed.

Lemma findFirstValidSibling_index_is_ahead_witness :
  findFirstValidSibling sample_registry 1 1
  = Returns (Some (Position "D" false true "A", 3))
  /\ 3 <> 1 /\ ((0 < 1)%Q -> 1 < 3) /\ ((1 < 0)%Q -> 3 < 1).
Proof.
  split; [vm_compute; reflexivity|].
  apply (findFirstValidSibling_index_is_ahead sample_registry 1 1
           (Position "D" false true "A") 3).
  vm_compute; reflexivity.
Defined.

(** ** addChildItemToTree *)

Section AddChild.
Variables (id : string) (item : block).

Lemma addChild_loop_absent t :
  Forall (addChild_inner_absent id item) t ->
  id ∉ tree_ids t ->
  forall newTree,
    addChild_loop (addChild_inner id item) id item t newTree = newTree ++ t.
Proof.
  induction 1 as [|b t Hb Ht IH]; intros Hnot newTree; simpl.
  - by rewrite app_nil_r.
  - rewrite tree_ids_cons, not_elem_of_cons, not_elem_of_app in Hnot.
    destruct Hnot as (Hne & Hin & Hrest).
    destruct (String.eqb_spec (clientId b) id) as [Heq|_]; [done|].
    destruct (0 <? Z.of_nat (length (innerBlocks b))).
    + rewrite (Hb Hin), with_innerBlocks_id, (IH Hrest).
      by rewrite <- app_assoc.
    + rewrite spread_id, (IH Hrest). by rewrite <- app_assoc.
Qed.

Lemma addChild_inner_absent_all b : addChild_inner_absent id item b.
Proof.
  induction b as [b IH] using block_nested_ind. intros Hnot.
  destruct b as [c dc ds inner]; simpl in *.
  by rewrite (addChild_loop_absent inner IH Hnot).
Qed.

Lemma addChild_loop_absent_all t newTree :
  id ∉ tree_ids t ->
  addChild_loop (addChild_inner id item) id item t newTree = newTree ++ t.
Proof.
  intros. apply addChild_loop_absent; [|done].
  apply Forall_forall. intros b _. apply addChild_inner_absent_all.
Qed.

Lemma addChild_loop_present t :
  Forall (addChild_inner_present id item) t ->
  NoDup (tree_ids t) ->
  id ∈ tree_ids t ->
  forall newTree,
    nested_at id item (newTree ++ t)
      (addChild_loop (addChild_inner id item) id item t newTree).
Proof.
  induction 1 as [|b t Hb Ht IH]; intros Hnd Hin newTree.
  - by apply elem_of_nil in Hin.
  - destruct (NoDup_tree_ids_cons _ _ Hnd) as (Hbi & Hbt & Hndi & Hndt & Hdisj).
    simpl. destruct (String.eqb_spec (clientId b) id) as [Heq|Hne].
    + rewrite addChild_loop_absent_all by (by rewrite <- Heq).
      rewrite <- app_assoc. by constructor.
    + rewrite tree_ids_cons in Hin.
      apply elem_of_cons in Hin as [Hin|Hin]; [congruence|].
      apply elem_of_app in Hin as [Hin|Hin].
      * destruct (0 <? Z.of_nat (length (innerBlocks b))) eqn:Hlen;
          [|apply has_children_nonempty in Hlen; rewrite Hlen in Hin;
            by apply elem_of_nil in Hin].
        rewrite addChild_loop_absent_all by (by apply Hdisj).
        rewrite <- app_assoc. constructor. by apply Hb.
      * assert (Hnin : id ∉ tree_ids (innerBlocks b)).
        { intros Hin'. by apply (Hdisj _ Hin'). }
        assert (Hstep : forall rest acc,
                   (if 0 <? Z.of_nat (length (innerBlocks b))
                    then addChild_loop (addChild_inner id item) id item rest
                           (acc ++ [with_innerBlocks b (addChild_inner id item b)])
                    else addChild_loop (addChild_inner id item) id item rest
                           (acc ++ [spread b]))
                   = addChild_loop (addChild_inner id item) id item rest
                       (acc ++ [b])).
        { intros rest acc. destruct (0 <? _); [|by rewrite spread_id].
          by rewrite (addChild_inner_absent_all b Hnin), with_innerBlocks_id. }
        rewrite Hstep. specialize (IH Hndt Hin (newTree ++ [b])).
        by rewrite <- app_assoc in IH.
Qed.

Lemma addChild_inner_present_all b : addChild_inner_present id item b.
Proof.
  induction b as [b IH] using block_nested_ind. intros Hnd Hin.
  destruct b as [c dc ds inner]; simpl in *.
  apply (addChild_loop_present inner IH Hnd Hin []).
Qed.

Lemma addChildItemToTree_present t :
  NoDup (tree_ids t) ->
  id ∈ tree_ids t ->
  nested_at id item t (addChildItemToTree t id item).
Proof.
  intros Hnd Hin. apply (addChild_loop_present t) with (newTree := []);
    try done.
  apply Forall_forall. intros b _. apply addChild_inner_present_all.
Qed.

Lemma addChildItemToTree_absent t :
  id ∉ tree_ids t -> addChildItemToTree t id item = t.
Proof. intros. unfold addChildItemToTree. by rewrite addChild_loop_absent_all. Qed.

End AddChild.

(** Removing a block keeps client ids pairwise distinct. *)
Lemma removeItemFromTree_NoDup t id parentId :
  NoDup (tree_ids t) ->
  NoDup (tree_ids (r_newTree (removeItemFromTree t id parentId))).
Proof.
  intros Hnd. destruct (decide (id ∈ tree_ids t)) as [Hin|Hnot].
  - pose proof (removeItemFromTree_present id t parentId Hnd Hin) as Hrem.
    destruct (removed_at_find _ _ _ _ _ Hnd Hrem) as (x & _ & Hperm).
    rewrite Hperm in Hnd. by apply NoDup_app in Hnd as (_ & _ & ?).
  - by rewrite removeItemFromTree_absent.
Qed.

(** ** moveItem *)

Lemma half_row : (ITEM_HEIGHT / 2 == 18)%Q.
Proof. reflexivity. Qed.

(** C5: a drag tick leaves the working tree, the pending target and the
    registry as they were whenever the velocity is zero (or absent), or
    the vertical translate and the velocity have opposite signs, or the
    vertical translate is less than half a row (36 / 2 = 18) in
    magnitude, whatever the other inputs are. *)
Theorem moveItem_guards_change_nothing
  (clientIdsTree : list block) (s : view) (a : drag_tick) :
  (default 0 (velocity a) == 0
   \/ (0 < default 0 (velocity a) /\ translate a < 0)
   \/ (default 0 (velocity a) < 0 /\ 0 < translate a)
   \/ Qabs (translate a) < 18)%Q ->
  moveItem clientIdsTree s a = Returns s.
Proof.
  intros Hguard. unfold moveItem.
  destruct (Qeq_bool (default 0%Q (velocity a)) 0) eqn:Hzero; [done|].
  destruct (_ || _) eqn:Hbounds; [done|].
  destruct (_ || _) eqn:Hsign in |- *; [done|].
  destruct (Qltb (Qabs (translate a)) (ITEM_HEIGHT / 2)) eqn:Hhalf; [done|].
  exfalso. destruct Hguard as [Hv|[[Hv Ht]|[[Hv Ht]|Ht]]].
  - apply Qeq_bool_iff in Hv. congruence.
  - apply Qgtb_gt in Hv. apply Qltb_lt in Ht.
    by rewrite Hv, Ht in Hsign.
  - assert (Hup : Qgtb (default 0%Q (velocity a)) 0 = false).
    { apply Qltb_ge. by apply Qlt_le_weak. }
    apply Qgtb_gt in Ht. by rewrite Hup, Ht in Hsign.
  - apply Qltb_ge in Hhalf. rewrite half_row in Hhalf.
    by apply Qle_not_lt in Hhalf.
Qed.

Lemma moveItem_guards_change_nothing_witness :
  moveItem drag_tree drag_view
           (DragTick (leaf "Y") 17 (-25) 3 (Some 5%Q))
  = Returns drag_view
  /\ moveItem drag_tree drag_view
              (DragTick (leaf "Y") 20 (-25) 3 None)
     = Returns drag_view
  /\ moveItem drag_tree drag_view
              (DragTick (leaf "Y") (-20) (-25) 3 (Some 5%Q))
     = Returns drag_view.
Proof.
  split; [|split]; apply moveItem_guards_change_nothing; simpl.
  - right. right. right. reflexivity.
  - left. reflexivity.
  - right. left. split; reflexivity.
Defined.

(** A tick that moves at least half a row in the direction of its
    velocity gets past the guards. *)
Lemma moveItem_past_guards clientIdsTree s a v d :
  velocity a = Some v ->
  ((0 < v /\ d = DOWN /\ 18 <= translate a) \/
   (v < 0 /\ d = UP /\ translate a <= -18))%Q ->
  moveItem clientIdsTree s a
  = if Qgtb (Qabs (translateX a)) UPDATE_PARENT_THRESHOLD
    then Returns (reparent clientIdsTree s a d)
    else sibling_swap clientIdsTree s a v d.
Proof.
  intros Hvel Hdir. unfold moveItem. rewrite Hvel. simpl default.
  assert (Hnz : Qeq_bool v 0 = false).
  { destruct (Qeq_bool v 0) eqn:E; [|done]. apply Qeq_bool_iff in E.
    exfalso. destruct Hdir as [(Hv & _)|(Hv & _)]; rewrite E in Hv;
      by apply Qlt_irrefl in Hv. }
  rewrite Hnz.
  assert (Hhalf : Qltb (Qabs (translate a)) (ITEM_HEIGHT / 2) = false).
  { apply Qltb_ge. rewrite half_row.
    destruct Hdir as [(_ & _ & Ht)|(_ & _ & Ht)].
    - rewrite Qabs_pos; [done|]. by apply Qle_trans with 18%Q.
    - rewrite Qabs_neg by (by apply Qle_trans with (-18)%Q).
      by apply Qopp_le_compat in Ht. }
  rewrite Hhalf.
  destruct Hdir as [(Hv & -> & Ht)|(Hv & -> & Ht)].
  - apply Qgtb_gt in Hv. rewrite Hv.
    assert (Hneg : Qltb (translate a) 0 = false).
    { apply Qltb_ge. by apply Qle_trans with 18%Q. }
    rewrite Hneg. simpl. by rewrite !andb_false_r.
  - assert (Hup : Qgtb v 0 = false).
    { apply Qltb_ge. by apply Qlt_le_weak. }
    rewrite Hup.
    assert (Hpos : Qgtb (translate a) 0 = false).
    { apply Qltb_ge. by apply Qle_trans with (-18)%Q. }
    rewrite Hpos. simpl. by rewrite !andb_false_r.
Qed.




(** ** dropItem *)

(** C9: when there is no pending target [dropItem] changes nothing, and
    so calls [moveBlocksToPosition] not at all. When there is one it
    calls [moveBlocksToPosition] once, with the dragged client id, the
    original parent recorded in the pending target, the target id and
    the target index, and clears the pending target; calling [dropItem]
    again then changes nothing. *)
Theorem dropItem_commits_once (s : view) :
  match lastTarget s with
  | None => dropItem s = s
  | Some t =>
      moveCalls (dropItem s)
      = moveCalls s ++ [MoveCall [pt_clientId t] (originalParent t)
                                 (pt_targetId t) (pt_targetIndex t)]
      /\ lastTarget (dropItem s) = None
      /\ dropItem (dropItem s) = dropItem s
  end.
Proof.
  unfold dropItem. destruct (lastTarget s) as [t|] eqn:Ht; [|done].
  by rewrite ?Ht.
Qed.

(** The scenario of the specification: [B] dragged down past [C] in
    [[A; B; C]] gives [[A; C; B]], and the drop commits it with one call
    [moveBlocksToPosition( [ 'B' ], '', '', 2 )]. *)
Lemma drag_B_past_C_then_drop :
  exists s',
    moveItem flat_tree flat_view drag_B_past_C = Returns s'
    /\ tree s' = [leaf "A"; leaf "C"; leaf "B"]
    /\ moveCalls (dropItem s') = [MoveCall ["B"] empty_string empty_string 2]
    /\ lastTarget (dropItem s') = None
    /\ dropped (settle (dropItem s')) = false.
Proof.
  eexists. split; [vm_compute; reflexivity|]. by vm_compute.
Qed.

(** A drag that ends before any tick has recorded a target commits
    nothing. *)
Lemma drop_without_tick : dropItem flat_view = flat_view.
Proof. reflexivity. Qed.

(** [moveItem] always comes back: it returns, or it throws when the
    sibling search needs the row at [listPosition] and there is none. *)
Lemma moveItem_terminates clientIdsTree s a :
  moveItem clientIdsTree s a <> Diverges.
Proof.
  unfold moveItem.
  destruct (Qeq_bool _ _); [done|]. destruct (_ || _); [done|].
  destruct (_ || _); [done|]. destruct (Qltb _ _); [done|].
  destruct (Qgtb (Qabs _) _); [done|]. unfold sibling_swap.
  pose proof (findFirstValidSibling_terminates (positions s) (listPosition a)
                (default 0%Q (velocity a))) as Ht.
  destruct (findFirstValidSibling _ _ _) as [[[p i]|]| |]; try done.
  by destruct (Qgtb _ _).
Qed.

Lemma moveItem_returns clientIdsTree s a cur :
  positions s !! listPosition a = Some cur ->
  exists s', moveItem clientIdsTree s a = Returns s'.
Proof.
  intros Hcur. unfold moveItem.
  destruct (Qeq_bool _ _); [by eexists|]. destruct (_ || _); [by eexists|].
  destruct (_ || _); [by eexists|]. destruct (Qltb _ _); [by eexists|].
  destruct (Qgtb (Qabs _) _); [by eexists|]. unfold sibling_swap.
  destruct (findFirstValidSibling_returns (positions s) (listPosition a)
              (default 0%Q (velocity a)) cur Hcur) as [r ->].
  destruct r as [[p i]|]; [|by eexists]. destruct (Qgtb _ _); by eexists.
Qed.

(** [setPosition] overwrites or inserts one row and leaves the others. *)
Lemma setPosition_lookup positions i j p :
  setPosition positions i p !! j
  = if decide (i = j) then Some p else positions !! j.
Proof. apply lookup_insert. Qed.

(** ** What the tree functions do to the objects they are given *)

Lemma alloc_extends (h : gmap positive Store.obj) o :
  h ⊆ (Store.alloc h o).2.
Proof. apply insert_subseteq, not_elem_of_dom, is_fresh. Qed.

(** [removeItemFromTree] only allocates: every object of the store it
    is given is still there, unchanged, when it returns. *)
Lemma store_remove_loop_extends rec id parentId :
  (forall t p h r, rec t p h = Some r -> h ⊆ r.2) ->
  forall t newTree rpid h r,
    Store.remove_loop rec id parentId t newTree rpid h = Some r ->
    h ⊆ r.2.
Proof.
  intros Hrec. induction t as [|l rest IH]; intros newTree rpid h r; simpl.
  - by intros [= <-].
  - destruct (h !! l) as [b|] eqn:Hl; [|done].
    destruct (negb _); [|by apply IH].
    destruct (0 <? _).
    + destruct (rec _ _ _) as [[[inner c] h1]|] eqn:Hr; [|done].
      apply Hrec in Hr. simpl in Hr.
      destruct (Store.copy_with h1 l inner) as [o|]; [|done].
      intros Hloop. apply IH in Hloop.
      transitivity h1; [done|].
      transitivity (Store.alloc h1 o).2; [apply alloc_extends | done].
    + intros Hloop. apply IH in Hloop.
      transitivity (Store.alloc h b).2; [apply alloc_extends | done].
Qed.

Lemma store_removeItemFromTree_extends fuel :
  forall t id parentId h r,
    Store.removeItemFromTree fuel t id parentId h = Some r -> h ⊆ r.2.
Proof.
  induction fuel as [|fuel IH]; intros t id parentId h r; simpl; [done|].
  apply store_remove_loop_extends. intros t0 p h0 r0. apply IH.
Qed.

(** So does [addItemToTree]. *)
Lemma store_add_loop_extends rec id item insertAfter parentId :
  (forall t p h r, rec t p h = Some r -> h ⊆ r.2) ->
  forall t newTree tidx tid h r,
    Store.add_loop rec id item insertAfter parentId t newTree tidx tid h
    = Some r ->
    h ⊆ r.2.
Proof.
  intros Hrec.
  induction t as [|l rest IH]; intros newTree tidx tid h r; simpl.
  - by intros [= <-].
  - destruct (h !! l) as [b|] eqn:Hl; [|done].
    destruct (String.eqb _ _).
    + destruct (h !! item) as [it|]; [|done].
      destruct insertAfter; intros Hloop; apply IH in Hloop.
      * transitivity (Store.alloc h b).2; [apply alloc_extends|].
        transitivity (Store.alloc (Store.alloc h b).2 it).2;
          [apply alloc_extends | done].
      * transitivity (Store.alloc h it).2; [apply alloc_extends|].
        transitivity (Store.alloc (Store.alloc h it).2 b).2;
          [apply alloc_extends | done].
    + destruct (0 <? _).
      * destruct (rec _ _ _) as [[[[inner ctid] ctidx] h1]|] eqn:Hr; [|done].
        apply Hrec in Hr. simpl in Hr.
        destruct (Store.copy_with h1 l inner) as [o|]; [|done].
        intros Hloop. apply IH in Hloop.
        transitivity h1; [done|].
        transitivity (Store.alloc h1 o).2; [apply alloc_extends | done].
      * intros Hloop. apply IH in Hloop.
        transitivity (Store.alloc h b).2; [apply alloc_extends | done].
Qed.

Lemma store_addItemToTree_extends fuel :
  forall t id item insertAfter parentId h r,
    Store.addItemToTree fuel t id item insertAfter parentId h = Some r ->
    h ⊆ r.2.
Proof.
  induction fuel as [|fuel IH];
    intros t id item insertAfter parentId h r; simpl; [done|].
  apply store_add_loop_extends. intros t0 p h0 r0. apply IH.
Qed.

(** ** The store functions compute the tree functions *)

Arguments Store.alloc : simpl never.

Lemma alloc_spec (h : gmap positive Store.obj) o :
  exists l, Store.alloc h o = (l, <[l := o]> h) /\ h !! l = None.
Proof.
  exists (fresh (dom h)). split; [done|]. apply not_elem_of_dom, is_fresh.
Qed.

Lemma Forall2_weaken_right {A B} (P Q : A -> B -> Prop) l k :
  Forall (fun y => forall x, P x y -> Q x y) k ->
  Forall2 P l k -> Forall2 Q l k.
Proof.
  intros Hall H2. induction H2 as [|x y l k Hxy H2 IH]; [constructor|].
  inversion Hall; subst. constructor; auto.
Qed.

Lemma repr_weaken (h h' : gmap positive Store.obj) b :
  h ⊆ h' -> forall l, Store.repr h l b -> Store.repr h' l b.
Proof.
  intros Hsub. induction b as [b IH] using block_nested_ind.
  intros l Hrepr. inversion Hrepr as [l0 o inner Hl Hinner]; subst.
  constructor; [by eapply lookup_weaken|].
  simpl in IH. by apply (Forall2_weaken_right (Store.repr h)).
Qed.

Lemma repr_list_weaken (h h' : gmap positive Store.obj) ls bs :
  h ⊆ h' -> Forall2 (Store.repr h) ls bs -> Forall2 (Store.repr h') ls bs.
Proof.
  intros Hsub H2. eapply Forall2_impl; [exact H2|].
  intros l b. by apply repr_weaken.
Qed.

(** A fresh copy of [l] with the children [inner'] holds the block
    with those children. *)
Lemma repr_alloc_copy (h : gmap positive Store.obj) c dc ds ls inner' l' :
  h !! l' = None ->
  Forall2 (Store.repr h) ls inner' ->
  Store.repr (<[l' := Store.Obj c dc ds ls]> h) l' (Block c dc ds inner').
Proof.
  intros Hfresh Hinner.
  apply (Store.repr_obj _ l' (Store.Obj c dc ds ls) inner').
  - apply lookup_insert_eq.
  - eapply repr_list_weaken; [|done]. by apply insert_subseteq.
Qed.

Lemma tree_height_cons b bs :
  tree_height (b :: bs) = Nat.max (block_height b) (tree_height bs).
Proof. reflexivity. Qed.

Lemma block_height_children c dc ds inner :
  block_height (Block c dc ds inner) = S (tree_height inner).
Proof. reflexivity. Qed.

Section RemoveRefines.
Variables (id : string) (n : nat).
Variable rec : list positive -> string -> gmap positive Store.obj
               -> option (list positive * string * gmap positive Store.obj).
Hypothesis rec_refines : forall bs ls p h,
  (tree_height bs < n)%nat ->
  Forall2 (Store.repr h) ls bs ->
  exists ls' h',
    rec ls p h = Some (ls', removeParentId (removeItemFromTree bs id p), h') /\
    h ⊆ h' /\
    Forall2 (Store.repr h') ls' (r_newTree (removeItemFromTree bs id p)).

Lemma store_remove_loop_refines parentId bs :
  (tree_height bs <= n)%nat ->
  forall ls h accL accB rp,
    Forall2 (Store.repr h) ls bs ->
    Forall2 (Store.repr h) accL accB ->
    exists ls' h',
      Store.remove_loop rec id parentId ls accL rp h
      = Some (ls',
              removeParentId
                (remove_loop (remove_inner id) id parentId bs accB rp), h') /\
      h ⊆ h' /\
      Forall2 (Store.repr h') ls'
        (r_newTree (remove_loop (remove_inner id) id parentId bs accB rp)).
Proof.
  induction bs as [|b bs IH]; intros Hheight ls h accL accB rp Hls Hacc.
  - apply Forall2_nil_inv_r in Hls as ->. by exists accL, h.
  - apply Forall2_cons_inv_r in Hls as (l & ls' & Hl & Hls & ->).
    rewrite tree_height_cons in Hheight.
    inversion Hl as [l0 o inner Hlook Hinner]; subst.
    rewrite block_height_children in Hheight.
    cbn. rewrite Hlook.
    rewrite (Forall2_length _ _ _ Hinner).
    destruct (String.eqb (Store.o_clientId o) id); cbn.
    + apply IH; [lia | done | done].
    + destruct (0 <? Z.of_nat (length inner)).
      * destruct (rec_refines inner (Store.o_innerBlocks o)
                    (Store.o_clientId o) h) as (li & h1 & Hrec & Hsub1 & Hli);
          [lia | done |].
        rewrite Hrec. unfold Store.copy_with.
        rewrite (lookup_weaken _ _ _ _ Hlook Hsub1).
        destruct (alloc_spec h1
                    (Store.Obj (Store.o_clientId o) (Store.o_dropContainer o)
                               (Store.o_dropSibling o) li))
          as (l' & -> & Hfresh).
        assert (Hsub2 : h1 ⊆ <[l' := Store.Obj (Store.o_clientId o)
                                 (Store.o_dropContainer o)
                                 (Store.o_dropSibling o) li]> h1)
          by (by apply insert_subseteq).
        edestruct IH as (ls'' & h' & Hloop & Hsub3 & Hres);
          [| | | eexists _, _; split; [exact Hloop|]; split; [|exact Hres]].
        -- lia.
        -- eapply repr_list_weaken; [|exact Hls]. by transitivity h1.
        -- apply Forall2_app.
           ++ eapply repr_list_weaken; [|exact Hacc]. by transitivity h1.
           ++ constructor; [|constructor]. by apply repr_alloc_copy.
        -- transitivity h1; [done|]. by etransitivity.
      * destruct (alloc_spec h o) as (l' & -> & Hfresh).
        assert (Hsub2 : h ⊆ <[l' := o]> h) by (by apply insert_subseteq).
        edestruct IH as (ls'' & h' & Hloop & Hsub3 & Hres);
          [| | | eexists _, _; split; [exact Hloop|]; split; [|exact Hres]].
        -- lia.
        -- eapply repr_list_weaken; [|exact Hls]. done.
        -- apply Forall2_app.
           ++ eapply repr_list_weaken; [|exact Hacc]. done.
           ++ constructor; [|constructor]. destruct o as [c dc ds inn].
              by apply repr_alloc_copy.
        -- by etransitivity.
Qed.

End RemoveRefines.

(** On a store that holds a tree, [removeItemFromTree] returns as soon
    as its fuel exceeds the depth of the tree, and what it returns holds
    the tree and the parent id computed by the function on trees. *)
Lemma store_removeItemFromTree_refines id fuel :
  forall bs ls parentId h,
    (tree_height bs < fuel)%nat ->
    Forall2 (Store.repr h) ls bs ->
    exists ls' h',
      Store.removeItemFromTree fuel ls id parentId h
      = Some (ls', removeParentId (removeItemFromTree bs id parentId), h') /\
      h ⊆ h' /\
      Forall2 (Store.repr h') ls' (r_newTree (removeItemFromTree bs id parentId)).
Proof.
  induction fuel as [|fuel IH]; intros bs ls parentId h Hheight Hls; [lia|].
  cbn. apply (store_remove_loop_refines id fuel
                (fun t p h' => Store.removeItemFromTree fuel t id p h')).
  - intros. by apply IH.
  - lia.
  - done.
  - constructor.
Qed.

Section AddRefines.
Variables (id : string) (item_l : positive) (item_b : block) (after : bool).
Variable n : nat.
Variable rec : list positive -> string -> gmap positive Store.obj
               -> option (list positive * string * Z * gmap positive Store.obj).
Hypothesis rec_refines : forall bs ls p h,
  (tree_height bs < n)%nat ->
  Forall2 (Store.repr h) ls bs ->
  Store.repr h item_l item_b ->
  exists ls' h',
    rec ls p h
    = Some (ls', targetId (addItemToTree bs id item_b after p),
            targetIndex (addItemToTree bs id item_b after p), h') /\
    h ⊆ h' /\
    Forall2 (Store.repr h') ls' (a_newTree (addItemToTree bs id item_b after p)).

Lemma store_add_loop_refines parentId bs :
  (tree_height bs <= n)%nat ->
  forall ls h accL accB tidx tid,
    Forall2 (Store.repr h) ls bs ->
    Forall2 (Store.repr h) accL accB ->
    Store.repr h item_l item_b ->
    exists ls' h',
      Store.add_loop rec id item_l after parentId ls accL tidx tid h
      = Some (ls',
              targetId (add_loop (add_inner id item_b after) id item_b after
                                 parentId bs accB tidx tid),
              targetIndex (add_loop (add_inner id item_b after) id item_b after
                                    parentId bs accB tidx tid), h') /\
      h ⊆ h' /\
      Forall2 (Store.repr h') ls'
        (a_newTree (add_loop (add_inner id item_b after) id item_b after
                             parentId bs accB tidx tid)).
Proof.
  induction bs as [|b bs IH]; intros Hheight ls h accL accB tidx tid Hls Hacc Hitem.
  - apply Forall2_nil_inv_r in Hls as ->. by exists accL, h.
  - apply Forall2_cons_inv_r in Hls as (l & ls' & Hl & Hls & ->).
    rewrite tree_height_cons in Hheight.
    inversion Hl as [l0 o inner Hlook Hinner]; subst.
    rewrite block_height_children in Hheight.
    cbn. rewrite Hlook.
    rewrite (Forall2_length _ _ _ Hinner), (Forall2_length _ _ _ Hacc).
    destruct (String.eqb (Store.o_clientId o) id); cbn.
    + (* the anchor: two copies are pushed *)
      inversion Hitem as [l0 oi iinner Hilook Hiinner]; subst.
      rewrite Hilook. destruct o as [c dc ds inn], oi as [ic idc ids iinn].
      cbn in *.
      destruct after.
      * destruct (alloc_spec h (Store.Obj c dc ds inn)) as (lb & -> & Hfb).
        destruct (alloc_spec (<[lb := Store.Obj c dc ds inn]> h)
                    (Store.Obj ic idc ids iinn)) as (li & -> & Hfi).
        set (h1 := <[lb := Store.Obj c dc ds inn]> h) in *.
        set (h2 := <[li := Store.Obj ic idc ids iinn]> h1).
        assert (Hsub1 : h ⊆ h1) by (by apply insert_subseteq).
        assert (Hsub2 : h1 ⊆ h2) by (by apply insert_subseteq).
        assert (Hsub : h ⊆ h2) by (by transitivity h1).
        edestruct IH as (ls'' & h' & Hloop & Hsub3 & Hres);
          [| | | | eexists _, _; split; [exact Hloop|]; split; [|exact Hres]].
        -- lia.
        -- by eapply repr_list_weaken.
        -- apply Forall2_app; [by eapply repr_list_weaken|].
           constructor; [|constructor; [|constructor]].
           ++ eapply repr_weaken; [exact Hsub2|]. by apply repr_alloc_copy.
           ++ apply repr_alloc_copy; [done|]. by eapply repr_list_weaken.
        -- by eapply repr_weaken.
        -- by transitivity h2.
      * destruct (alloc_spec h (Store.Obj ic idc ids iinn)) as (li & -> & Hfi).
        destruct (alloc_spec (<[li := Store.Obj ic idc ids iinn]> h)
                    (Store.Obj c dc ds inn)) as (lb & -> & Hfb).
        set (h1 := <[li := Store.Obj ic idc ids iinn]> h) in *.
        set (h2 := <[lb := Store.Obj c dc ds inn]> h1).
        assert (Hsub1 : h ⊆ h1) by (by apply insert_subseteq).
        assert (Hsub2 : h1 ⊆ h2) by (by apply insert_subseteq).
        assert (Hsub : h ⊆ h2) by (by transitivity h1).
        edestruct IH as (ls'' & h' & Hloop & Hsub3 & Hres);
          [| | | | eexists _, _; split; [exact Hloop|]; split; [|exact Hres]].
        -- lia.
        -- by eapply repr_list_weaken.
        -- apply Forall2_app; [by eapply repr_list_weaken|].
           constructor; [|constructor; [|constructor]].
           ++ eapply repr_weaken; [exact Hsub2|]. by apply repr_alloc_copy.
           ++ apply repr_alloc_copy; [done|]. by eapply repr_list_weaken.
        -- by eapply repr_weaken.
        -- by transitivity h2.
    + destruct (0 <? Z.of_nat (length inner)).
      * destruct (rec_refines inner (Store.o_innerBlocks o)
                    (Store.o_clientId o) h) as (li & h1 & Hrec & Hsub1 & Hli);
          [lia | done | done |].
        rewrite Hrec. unfold Store.copy_with.
        rewrite (lookup_weaken _ _ _ _ Hlook Hsub1).
        destruct (alloc_spec h1
                    (Store.Obj (Store.o_clientId o) (Store.o_dropContainer o)
                               (Store.o_dropSibling o) li))
          as (l' & -> & Hfresh).
        set (h2 := <[l' := _]> h1).
        assert (Hsub2 : h1 ⊆ h2) by (by apply insert_subseteq).
        assert (Hsub : h ⊆ h2) by (by transitivity h1).
        edestruct IH as (ls'' & h' & Hloop & Hsub3 & Hres);
          [| | | | eexists _, _; split; [exact Hloop|]; split; [|exact Hres]].
        -- lia.
        -- by eapply repr_list_weaken.
        -- apply Forall2_app; [by eapply repr_list_weaken|].
           constructor; [|constructor]. by apply repr_alloc_copy.
        -- by eapply repr_weaken.
        -- by transitivity h2.
      * destruct (alloc_spec h o) as (l' & -> & Hfresh).
        set (h1 := <[l' := o]> h).
        assert (Hsub : h ⊆ h1) by (by apply insert_subseteq).
        edestruct IH as (ls'' & h' & Hloop & Hsub3 & Hres);
          [| | | | eexists _, _; split; [exact Hloop|]; split; [|exact Hres]].
        -- lia.
        -- by eapply repr_list_weaken.
        -- apply Forall2_app; [by eapply repr_list_weaken|].
           constructor; [|constructor]. destruct o as [c dc ds inn].
           by apply repr_alloc_copy.
        -- by eapply repr_weaken.
        -- by transitivity h1.
Qed.

End AddRefines.

Lemma store_addItemToTree_refines id item_l item_b after fuel :
  forall bs ls parentId h,
    (tree_height bs < fuel)%nat ->
    Forall2 (Store.repr h) ls bs ->
    Store.repr h item_l item_b ->
    exists ls' h',
      Store.addItemToTree fuel ls id item_l after parentId h
      = Some (ls', targetId (addItemToTree bs id item_b after parentId),
              targetIndex (addItemToTree bs id item_b after parentId), h') /\
      h ⊆ h' /\
      Forall2 (Store.repr h') ls'
        (a_newTree (addItemToTree bs id item_b after parentId)).
Proof.
  induction fuel as [|fuel IH]; intros bs ls parentId h Hheight Hls Hitem; [lia|].
  cbn. apply (store_add_loop_refines id item_l item_b after fuel
                (fun t p h' => Store.addItemToTree fuel t id item_l after p h')).
  - intros. by apply IH.
  - lia.
  - done.
  - constructor.
  - done.
Qed.

(** [addChildItemToTree] on a root that has the id: the object the
    caller passed is overwritten and handed back. *)
Lemma store_addChildItemToTree_overwrites fuel l o id item
  (h : gmap positive Store.obj) :
  h !! l = Some o ->
  Store.o_clientId o = id ->
  Store.addChildItemToTree (S fuel) [l] id item h
  = Some ([l],
          <[l := Store.Obj (Store.o_clientId o) (Store.o_dropContainer o)
                           (Store.o_dropSibling o)
                           (item :: Store.o_innerBlocks o)]> h).
Proof.
  intros Hl Hid. cbn. rewrite Hl, Hid. by rewrite String.eqb_refl.
Qed.

(** In [moveItem] the tree handed to [addChildItemToTree] is the one
    [removeItemFromTree] has just built, so the assignment lands on a
    copy: dragging [B] into [A], the two objects of the authoritative
    tree are as they were and the copy of [A] has [B] as its child. *)
Lemma remove_then_addChild_spares_authoritative_tree :
  exists h1 h2,
    Store.removeItemFromTree 1 [1%positive; 2%positive] "B" empty_string
                             two_blocks
    = Some ([3%positive], empty_string, h1)
    /\ Store.addChildItemToTree 1 [3%positive] "A" 2%positive h1
       = Some ([3%positive], h2)
    /\ h2 !! 1%positive = two_blocks !! 1%positive
    /\ h2 !! 2%positive = two_blocks !! 2%positive
    /\ h2 !! 3%positive = Some (Store.Obj "A" false false [2%positive]).
Proof.
  eexists _, _. split; [vm_compute; reflexivity|].
  split; [vm_compute; reflexivity|]. by vm_compute.
Qed.

(** C3: [addChildItemToTree] is not free of effects on its input. Given
    the one-block tree [[A]] and the item [B], it assigns the
    [innerBlocks] field of the very object [A] it was given (it goes
    from empty to [[B]]) and returns a tree holding that same object;
    the other two functions leave every object they are given as it was
    (lemmas [store_removeItemFromTree_extends] and
    [store_addItemToTree_extends]). *)
Theorem addChildItemToTree_assigns_input_block :
  two_blocks !! 1%positive = Some (Store.Obj "A" false false [])
  /\ exists h',
      Store.addChildItemToTree 1 [1%positive] "A" 2%positive two_blocks
      = Some ([1%positive], h')
      /\ h' !! 1%positive = Some (Store.Obj "A" false false [2%positive])
      /\ ~ two_blocks ⊆ h'.
Proof.
  split; [reflexivity|].
  exists (<[1%positive := Store.Obj "A" false false [2%positive]]> two_blocks).
  split; [reflexivity|]. split; [reflexivity|].
  intros Hsub.
  assert (H1 : two_blocks !! 1%positive = Some (Store.Obj "A" false false []))
    by reflexivity.
  eapply lookup_weaken in H1; [|exact Hsub]. discriminate H1.
Qed.

(** * Further properties of the tree functions *)

(** ** The loops, piecewise *)

Lemma remove_loop_app rec id parentId t1 t2 : forall newTree rpid,
  remove_loop rec id parentId (t1 ++ t2) newTree rpid
  = remove_loop rec id parentId t2
      (r_newTree (remove_loop rec id parentId t1 newTree rpid))
      (removeParentId (remove_loop rec id parentId t1 newTree rpid)).
Proof.
  induction t1 as [|b t1 IH]; intros newTree rpid; simpl; [done|].
  destruct (negb _); [destruct (0 <? _)|]; apply IH.
Qed.

Lemma add_loop_app rec id item after parentId t1 t2 : forall newTree tidx tid,
  add_loop rec id item after parentId (t1 ++ t2) newTree tidx tid
  = add_loop rec id item after parentId t2
      (a_newTree (add_loop rec id item after parentId t1 newTree tidx tid))
      (targetIndex (add_loop rec id item after parentId t1 newTree tidx tid))
      (targetId (add_loop rec id item after parentId t1 newTree tidx tid)).
Proof.
  induction t1 as [|b t1 IH]; intros newTree tidx tid; simpl; [done|].
  destruct (String.eqb _ _); [destruct after|destruct (0 <? _)]; apply IH.
Qed.

Lemma remove_loop_absent_all id parentId t newTree rpid :
  id ∉ tree_ids t ->
  remove_loop (remove_inner id) id parentId t newTree rpid
  = Removed (newTree ++ t) rpid.
Proof.
  intros. apply remove_loop_absent; [|done].
  apply Forall_forall. intros b _. apply remove_inner_absent_all.
Qed.

Lemma remove_loop_skip id parentId t1 t2 newTree rpid :
  id ∉ tree_ids t1 ->
  remove_loop (remove_inner id) id parentId (t1 ++ t2) newTree rpid
  = remove_loop (remove_inner id) id parentId t2 (newTree ++ t1) rpid.
Proof.
  intros Hnot. by rewrite remove_loop_app, (remove_loop_absent_all _ _ t1).
Qed.

Lemma remove_loop_hit rec id parentId b t newTree rpid :
  clientId b = id ->
  remove_loop rec id parentId (b :: t) newTree rpid
  = remove_loop rec id parentId t newTree parentId.
Proof. intros <-. simpl. by rewrite String.eqb_refl. Qed.

Lemma remove_loop_miss rec id parentId b t newTree rpid :
  clientId b <> id ->
  remove_loop rec id parentId (b :: t) newTree rpid
  = if 0 <? Z.of_nat (length (innerBlocks b))
    then remove_loop rec id parentId t
           (newTree ++ [with_innerBlocks b (r_newTree (rec b))])
           (nonempty_or (removeParentId (rec b)) rpid)
    else remove_loop rec id parentId t (newTree ++ [spread b]) rpid.
Proof.
  intros Hne. simpl. by destruct (String.eqb_spec (clientId b) id).
Qed.

(** ** removeItemFromTree on any tree *)

Section RemoveAny.
Variable id : string.

Lemma remove_loop_sublist parentId t :
  Forall (fun b => tree_ids (r_newTree (remove_inner id b))
                   `sublist_of` tree_ids (innerBlocks b)) t ->
  forall newTree rpid,
  exists out,
    r_newTree (remove_loop (remove_inner id) id parentId t newTree rpid)
    = newTree ++ out
    /\ tree_ids out `sublist_of` tree_ids t.
Proof.
  induction 1 as [|b t Hb Ht IH]; intros newTree rpid; simpl.
  - exists []. by rewrite app_nil_r.
  - change (tree_ids (b :: t)) with (block_ids b ++ tree_ids t).
    destruct (String.eqb (clientId b) id); simpl.
    + destruct (IH newTree parentId) as (out & -> & Hsub).
      exists out. split; [done|]. by apply sublist_inserts_l.
    + rewrite block_ids_children.
      destruct (0 <? _) eqn:Hlen.
      * destruct (IH (newTree ++ [with_innerBlocks b
                                     (r_newTree (remove_inner id b))])
                    (nonempty_or (removeParentId (remove_inner id b)) rpid))
          as (out & -> & Hsub).
        exists (with_innerBlocks b (r_newTree (remove_inner id b)) :: out).
        split; [by rewrite <- app_assoc|].
        rewrite tree_ids_cons. simpl. constructor. by apply sublist_app.
      * destruct (IH (newTree ++ [spread b]) rpid) as (out & -> & Hsub).
        exists (b :: out). rewrite spread_id.
        split; [by rewrite <- app_assoc|].
        rewrite tree_ids_cons. constructor. by apply sublist_app.
Qed.

Lemma remove_inner_sublist b :
  tree_ids (r_newTree (remove_inner id b)) `sublist_of` tree_ids (innerBlocks b).
Proof.
  induction b as [b IH] using block_nested_ind.
  destruct b as [c dc ds inner]; simpl in *.
  destruct (remove_loop_sublist c inner IH [] empty_string) as (out & -> & ?).
  done.
Qed.

Lemma removeItemFromTree_sublist t parentId :
  tree_ids (r_newTree (removeItemFromTree t id parentId))
  `sublist_of` tree_ids t.
Proof.
  unfold removeItemFromTree.
  destruct (remove_loop_sublist parentId t) with (newTree := @nil block)
    (rpid := empty_string) as (out & -> & ?); [|done].
  apply Forall_forall. intros b _. apply remove_inner_sublist.
Qed.

End RemoveAny.

(** X1: whatever the tree, also one with repeated client ids,
    [removeItemFromTree] leaves no block with the given id, at any
    depth, and the client ids of what it returns are those of the input
    in the same order with some left out: it invents and reorders
    nothing. *)
Theorem removeItemFromTree_removes_all_and_adds_none
  (t : list block) (id parentId : string) :
  (id ∉ tree_ids (r_newTree (removeItemFromTree t id parentId)))
  /\ tree_ids (r_newTree (removeItemFromTree t id parentId))
     `sublist_of` tree_ids t.
Proof.
  split; [apply removeItemFromTree_gone | apply removeItemFromTree_sublist].
Qed.

(** X2: removing the same id a second time changes nothing: the tree
    comes back as it is and the reported parent id is empty. *)
Theorem removeItemFromTree_twice (t : list block) (id p1 p2 : string) :
  removeItemFromTree (r_newTree (removeItemFromTree t id p1)) id p2
  = Removed (r_newTree (removeItemFromTree t id p1)) empty_string.
Proof. apply removeItemFromTree_absent, removeItemFromTree_gone. Qed.

(** ** addItemToTree on any tree *)

Section AddAny.
Variables (id : string) (item : block) (after : bool).

(** Once an index has been set it stays set; a match sets it. *)
Lemma add_loop_index_found parentId t :
  Forall (fun b => id ∈ tree_ids (innerBlocks b) ->
                   0 <= targetIndex (add_inner id item after b)) t ->
  forall newTree tidx tid,
    0 <= tidx \/ id ∈ tree_ids t ->
    0 <= targetIndex (add_loop (add_inner id item after) id item after
                               parentId t newTree tidx tid).
Proof.
  induction 1 as [|b t Hb Ht IH]; intros newTree tidx tid Hfound; simpl.
  - destruct Hfound as [?|Hin]; [done | by apply elem_of_nil in Hin].
  - destruct (String.eqb_spec (clientId b) id) as [Heq|Hne].
    + destruct after; apply IH; left; lia.
    + assert (Hcases : 0 <= tidx \/ id ∈ tree_ids (innerBlocks b)
                       \/ id ∈ tree_ids t).
      { destruct Hfound as [?|Hin]; [by left|]. right.
        rewrite tree_ids_cons, elem_of_cons, elem_of_app in Hin.
        destruct Hin as [?|Hin]; [congruence | done]. }
      destruct (0 <? _) eqn:Hlen.
      * apply IH. destruct Hcases as [?|[Hin|?]]; [left; lia | | by right].
        left. specialize (Hb Hin). lia.
      * apply IH. destruct Hcases as [?|[Hin|?]]; [by left | | by right].
        apply has_children_nonempty in Hlen. rewrite Hlen in Hin.
        by apply elem_of_nil in Hin.
Qed.

Lemma add_inner_index_found b :
  id ∈ tree_ids (innerBlocks b) ->
  0 <= targetIndex (add_inner id item after b).
Proof.
  induction b as [b IH] using block_nested_ind. intros Hin.
  destruct b as [c dc ds inner]; simpl in *.
  apply add_loop_index_found; [done | by right].
Qed.

Lemma addItemToTree_index_found t parentId :
  id ∈ tree_ids t ->
  0 <= targetIndex (addItemToTree t id item after parentId).
Proof.
  intros Hin. apply add_loop_index_found; [|by right].
  apply Forall_forall. intros b _. apply add_inner_index_found.
Qed.

Lemma add_loop_sublist parentId t :
  Forall (fun b => tree_ids (innerBlocks b)
                   `sublist_of` tree_ids (a_newTree (add_inner id item after b))) t ->
  forall newTree tidx tid,
  exists out,
    a_newTree (add_loop (add_inner id item after) id item after parentId t
                        newTree tidx tid)
    = newTree ++ out
    /\ tree_ids t `sublist_of` tree_ids out.
Proof.
  induction 1 as [|b t Hb Ht IH]; intros newTree tidx tid; simpl.
  - exists []. by rewrite app_nil_r.
  - destruct (String.eqb (clientId b) id).
    + rewrite !spread_id. destruct after.
      * destruct (IH (newTree ++ [b; item])
                    (Z.of_nat (length newTree) + 1) parentId)
          as (out & -> & Hsub).
        exists (b :: item :: out). split; [by rewrite <- app_assoc|].
        change (tree_ids (b :: t)) with (block_ids b ++ tree_ids t).
        change (tree_ids (b :: item :: out))
          with (block_ids b ++ block_ids item ++ tree_ids out).
        apply sublist_app; [done|]. by apply sublist_inserts_l.
      * destruct (IH (newTree ++ [item; b])
                    (Z.of_nat (length newTree)) parentId)
          as (out & -> & Hsub).
        exists (item :: b :: out). split; [by rewrite <- app_assoc|].
        change (tree_ids (b :: t)) with (block_ids b ++ tree_ids t).
        change (tree_ids (item :: b :: out))
          with (block_ids item ++ block_ids b ++ tree_ids out).
        apply sublist_inserts_l. by apply sublist_app.
    + destruct (0 <? _).
      * destruct (IH (newTree ++ [with_innerBlocks b
                                     (a_newTree (add_inner id item after b))])
                    (Z.max tidx (targetIndex (add_inner id item after b)))
                    (nonempty_or (targetId (add_inner id item after b)) tid))
          as (out & -> & Hsub).
        exists (with_innerBlocks b (a_newTree (add_inner id item after b)) :: out).
        split; [by rewrite <- app_assoc|].
        rewrite (tree_ids_cons (with_innerBlocks b _) out), block_ids_children.
        simpl. constructor. by apply sublist_app.
      * destruct (IH (newTree ++ [spread b]) tidx tid) as (out & -> & Hsub).
        exists (b :: out). rewrite spread_id.
        split; [by rewrite <- app_assoc|].
        rewrite (tree_ids_cons b out), block_ids_children.
        constructor. by apply sublist_app.
Qed.

Lemma add_inner_sublist b :
  tree_ids (innerBlocks b)
  `sublist_of` tree_ids (a_newTree (add_inner id item after b)).
Proof.
  induction b as [b IH] using block_nested_ind.
  destruct b as [c dc ds inner]; simpl in *.
  destruct (add_loop_sublist c inner IH [] (-1) empty_string) as (out & -> & ?).
  done.
Qed.

Lemma addItemToTree_sublist t parentId :
  tree_ids t
  `sublist_of` tree_ids (a_newTree (addItemToTree t id item after parentId)).
Proof.
  unfold addItemToTree.
  destruct (add_loop_sublist parentId t) with (newTree := @nil block)
    (tidx := -1) (tid := empty_string) as (out & -> & ?); [|done].
  apply Forall_forall. intros b _. apply add_inner_sublist.
Qed.

End AddAny.

(** X3: whatever the tree, also one with repeated client ids, the index
    [addItemToTree] returns is -1 exactly when no block has the anchor
    id; when some block has it the index is not negative. *)
Theorem addItemToTree_sentinel_iff_absent
  (t : list block) (id : string) (item : block) (insertAfter : bool)
  (parentId : string) :
  (targetIndex (addItemToTree t id item insertAfter parentId) = -1
   <-> id ∉ tree_ids t)
  /\ -1 <= targetIndex (addItemToTree t id item insertAfter parentId).
Proof.
  destruct (decide (id ∈ tree_ids t)) as [Hin|Hnot].
  - pose proof (addItemToTree_index_found id item insertAfter t parentId Hin).
    split; [|lia]. split; [lia | done].
  - rewrite (addItemToTree_absent id item insertAfter t parentId Hnot). simpl.
    split; [|lia]. done.
Qed.

(** X4: whatever the tree, [addItemToTree] drops and reorders no block:
    the client ids of the input appear, in order, among those of the
    tree it returns. *)
Theorem addItemToTree_keeps_every_block
  (t : list block) (id : string) (item : block) (insertAfter : bool)
  (parentId : string) :
  tree_ids t
  `sublist_of`
  tree_ids (a_newTree (addItemToTree t id item insertAfter parentId)).
Proof. apply addItemToTree_sublist. Qed.

(** ** addChildItemToTree *)

Lemma nested_at_ids id item t t' :
  nested_at id item t t' -> tree_ids t' ≡ₚ block_ids item ++ tree_ids t.
Proof.
  induction 1 as [l1 x l2 Hx | l1 p l2 inner' Hnest IH].
  - rewrite !tree_ids_app, (tree_ids_cons (with_innerBlocks x _) l2),
      (tree_ids_cons x l2).
    symmetry. apply (perm_into_middle (block_ids item)).
  - rewrite !tree_ids_app, !tree_ids_cons. simpl. rewrite IH.
    symmetry. apply perm_into_middle.
Qed.

(** X5: in a tree with pairwise distinct client ids, [addChildItemToTree]
    puts the item in front of the [innerBlocks] of the block that has
    the given id and changes nothing else; when no block has the id
    (whatever the tree) it returns the tree as it was. *)
Theorem addChildItemToTree_prepends_or_leaves
  (t : list block) (id : string) (item : block) :
  (NoDup (tree_ids t) -> id ∈ tree_ids t ->
   nested_at id item t (addChildItemToTree t id item))
  /\ (id ∉ tree_ids t -> addChildItemToTree t id item = t).
Proof.
  split; [apply addChildItemToTree_present | apply addChildItemToTree_absent].
Qed.

Lemma addChildItemToTree_prepends_or_leaves_witness :
  addChildItemToTree sample_tree "P" (leaf "N")
  = [leaf "A"; Block "P" true false [leaf "N"; leaf "X"; leaf "Y"]; leaf "C"]
  /\ nested_at "P" (leaf "N") sample_tree
       (addChildItemToTree sample_tree "P" (leaf "N"))
  /\ addChildItemToTree sample_tree "Z" (leaf "N") = sample_tree.
Proof.
  split; [reflexivity|].
  destruct (addChildItemToTree_prepends_or_leaves sample_tree "P" (leaf "N"))
    as [Hpresent _].
  destruct (addChildItemToTree_prepends_or_leaves sample_tree "Z" (leaf "N"))
    as [_ Habsent].
  split; [apply Hpresent | apply Habsent]; by_evaluation.
Defined.

(** X6: let [t] have pairwise distinct client ids and [node] be its
    block with client id [x]. Removing [x] and putting [node] in as the
    first child of any block left in the tree gives a tree with the same
    client ids as [t], each once. *)
Theorem remove_then_addChild_keeps_ids
  (t : list block) (x target : string) (node : block) :
  NoDup (tree_ids t) ->
  find_node x t = Some node ->
  target ∈ tree_ids (r_newTree (removeItemFromTree t x empty_string)) ->
  tree_ids (addChildItemToTree
              (r_newTree (removeItemFromTree t x empty_string)) target node)
  ≡ₚ tree_ids t
  /\ NoDup (tree_ids (addChildItemToTree
                        (r_newTree (removeItemFromTree t x empty_string))
                        target node)).
Proof.
  intros Hnd Hfind Htarget.
  destruct (find_node_Some _ _ _ Hfind) as [Hin _].
  pose proof (removeItemFromTree_present x t empty_string Hnd Hin) as Hrem.
  destruct (removed_at_find _ _ _ _ _ Hnd Hrem) as (node' & Hfind' & Hperm).
  assert (node' = node) as -> by congruence.
  pose proof (removeItemFromTree_NoDup t x empty_string Hnd) as Hnd'.
  pose proof (addChildItemToTree_present target node _ Hnd' Htarget) as Hnest.
  apply nested_at_ids in Hnest.
  assert (Hall : tree_ids (addChildItemToTree
                             (r_newTree (removeItemFromTree t x empty_string))
                             target node)
                 ≡ₚ tree_ids t) by (by rewrite Hnest, Hperm).
  split; [done | by rewrite Hall].
Qed.

Lemma remove_then_addChild_keeps_ids_witness :
  tree_ids (addChildItemToTree
              (r_newTree (removeItemFromTree sample_tree "C" empty_string))
              "P" (leaf "C"))
  = ["A"; "P"; "C"; "X"; "Y"]
  /\ ["A"; "P"; "C"; "X"; "Y"] ≡ₚ tree_ids sample_tree.
Proof.
  split; [reflexivity|].
  change ["A"; "P"; "C"; "X"; "Y"] with
    (tree_ids (addChildItemToTree
                 (r_newTree (removeItemFromTree sample_tree "C" empty_string))
                 "P" (leaf "C"))).
  apply (remove_then_addChild_keeps_ids sample_tree "C" "P" (leaf "C"));
    [by_evaluation | reflexivity | by_evaluation].
Defined.

(** ** Taking out again what was put in *)

Lemma inserted_at_nonempty id item after parent t t' i pid :
  inserted_at id item after parent t t' i pid ->
  (0 <? Z.of_nat (length t')) = true.
Proof.
  destruct 1 as [? l1|? l1]; destruct l1; try done. by destruct after.
Qed.

Lemma nested_at_nonempty id item t t' :
  nested_at id item t t' -> (0 <? Z.of_nat (length t')) = true.
Proof. destruct 1 as [l1|l1]; by destruct l1. Qed.

Lemma removed_after_inserted id item after parent t t' i pid :
  inserted_at id item after parent t t' i pid ->
  clientId item ∉ tree_ids t ->
  removeItemFromTree t' (clientId item) parent = Removed t pid.
Proof.
  induction 1 as [parent l1 x l2 Hx | parent l1 p l2 inner' i pid Hins IH];
    intros Hfresh.
  - rewrite tree_ids_app, not_elem_of_app in Hfresh.
    destruct Hfresh as [Hl1 Hxl2].
    change (x :: l2) with ([x] ++ l2) in Hxl2.
    rewrite tree_ids_app, not_elem_of_app in Hxl2. destruct Hxl2 as [Hx' Hl2].
    unfold removeItemFromTree.
    rewrite remove_loop_skip by done.
    destruct after.
    + change ([x; item] ++ l2) with ([x] ++ item :: l2).
      rewrite remove_loop_skip, remove_loop_hit by done.
      rewrite remove_loop_absent_all by done. by rewrite <- app_assoc.
    + change ([item; x] ++ l2) with (item :: [x] ++ l2).
      rewrite remove_loop_hit, remove_loop_skip by done.
      rewrite remove_loop_absent_all by done. by rewrite <- app_assoc.
  - rewrite tree_ids_app, not_elem_of_app in Hfresh.
    destruct Hfresh as [Hl1 Hpl2].
    rewrite tree_ids_cons, not_elem_of_cons, not_elem_of_app in Hpl2.
    destruct Hpl2 as (Hne & Hinner & Hl2).
    specialize (IH Hinner).
    unfold removeItemFromTree.
    rewrite remove_loop_skip by done.
    rewrite remove_loop_miss by (simpl; congruence).
    change (innerBlocks (with_innerBlocks p inner')) with inner'.
    rewrite (inserted_at_nonempty _ _ _ _ _ _ _ _ Hins).
    assert (Hrec : remove_inner (clientId item) (with_innerBlocks p inner')
                   = Removed (innerBlocks p) pid) by exact IH.
    rewrite Hrec. simpl r_newTree. simpl removeParentId.
    rewrite nonempty_or_empty_r, remove_loop_absent_all by done.
    rewrite <- app_assoc.
    change (with_innerBlocks (with_innerBlocks p inner') (innerBlocks p))
      with (with_innerBlocks p (innerBlocks p)).
    by rewrite with_innerBlocks_id.
Qed.

Lemma removed_after_nested id item t t' :
  nested_at id item t t' ->
  clientId item ∉ tree_ids t ->
  forall parent,
    removeItemFromTree t' (clientId item) parent = Removed t id.
Proof.
  induction 1 as [l1 x l2 Hx | l1 p l2 inner' Hnest IH]; intros Hfresh parent.
  - rewrite tree_ids_app, not_elem_of_app in Hfresh.
    destruct Hfresh as [Hl1 Hxl2].
    rewrite tree_ids_cons, not_elem_of_cons, not_elem_of_app in Hxl2.
    destruct Hxl2 as (Hne & Hinner & Hl2).
    unfold removeItemFromTree.
    rewrite remove_loop_skip by done.
    rewrite remove_loop_miss by (simpl; congruence).
    change (innerBlocks (with_innerBlocks x (item :: innerBlocks x)))
      with (item :: innerBlocks x).
    change (0 <? Z.of_nat (length (item :: innerBlocks x))) with true.
    cbv iota.
    assert (Hrec : remove_inner (clientId item)
                     (with_innerBlocks x (item :: innerBlocks x))
                   = Removed (innerBlocks x) (clientId x)).
    { change (remove_loop (remove_inner (clientId item)) (clientId item)
                (clientId x) (item :: innerBlocks x) [] empty_string
              = Removed (innerBlocks x) (clientId x)).
      rewrite remove_loop_hit by done. by rewrite remove_loop_absent_all. }
    rewrite Hrec. simpl r_newTree. simpl removeParentId.
    rewrite nonempty_or_empty_r, remove_loop_absent_all by done.
    rewrite <- app_assoc.
    change (with_innerBlocks (with_innerBlocks x (item :: innerBlocks x))
              (innerBlocks x))
      with (with_innerBlocks x (innerBlocks x)).
    by rewrite with_innerBlocks_id, Hx.
  - rewrite tree_ids_app, not_elem_of_app in Hfresh.
    destruct Hfresh as [Hl1 Hpl2].
    rewrite tree_ids_cons, not_elem_of_cons, not_elem_of_app in Hpl2.
    destruct Hpl2 as (Hne & Hinner & Hl2).
    specialize (IH Hinner (clientId p)).
    unfold removeItemFromTree.
    rewrite remove_loop_skip by done.
    rewrite remove_loop_miss by (simpl; congruence).
    change (innerBlocks (with_innerBlocks p inner')) with inner'.
    rewrite (nested_at_nonempty _ _ _ _ Hnest).
    assert (Hrec : remove_inner (clientId item) (with_innerBlocks p inner')
                   = Removed (innerBlocks p) id) by exact IH.
    rewrite Hrec. simpl r_newTree. simpl removeParentId.
    rewrite nonempty_or_empty_r, remove_loop_absent_all by done.
    rewrite <- app_assoc.
    change (with_innerBlocks (with_innerBlocks p inner') (innerBlocks p))
      with (with_innerBlocks p (innerBlocks p)).
    by rewrite with_innerBlocks_id.
Qed.

(** X7: in a tree with pairwise distinct client ids, putting in with
    [addItemToTree] a block whose client id is not in the tree and then
    removing that id gives back the tree, and the parent id
    [removeItemFromTree] reports is the target id [addItemToTree]
    returned. *)
Theorem addItemToTree_then_remove_restores
  (t : list block) (anchor : string) (item : block) (insertAfter : bool) :
  NoDup (tree_ids t) ->
  clientId item ∉ tree_ids t ->
  removeItemFromTree
    (a_newTree (addItemToTree t anchor item insertAfter empty_string))
    (clientId item) empty_string
  = Removed t (targetId (addItemToTree t anchor item insertAfter empty_string)).
Proof.
  intros Hnd Hfresh. destruct (decide (anchor ∈ tree_ids t)) as [Hin|Hnot].
  - eapply removed_after_inserted; [|done].
    by apply addItemToTree_present.
  - rewrite (addItemToTree_absent anchor item insertAfter t _ Hnot). simpl.
    by apply removeItemFromTree_absent.
Qed.

Lemma addItemToTree_then_remove_restores_witness :
  removeItemFromTree
    (a_newTree (addItemToTree sample_tree "X" (leaf "N") false empty_string))
    "N" empty_string
  = Removed sample_tree "P".
Proof.
  apply (addItemToTree_then_remove_restores sample_tree "X" (leaf "N") false);
    by_evaluation.
Defined.

(** X8: the same for [addChildItemToTree]: in a tree with pairwise
    distinct client ids that has a block with the target id, nesting a
    block with a new client id and then removing that id gives back the
    tree, and the parent id reported is the target id. *)
Theorem addChildItemToTree_then_remove_restores
  (t : list block) (target : string) (item : block) :
  NoDup (tree_ids t) ->
  target ∈ tree_ids t ->
  clientId item ∉ tree_ids t ->
  removeItemFromTree (addChildItemToTree t target item)
                     (clientId item) empty_string
  = Removed t target.
Proof.
  intros Hnd Hin Hfresh. eapply removed_after_nested; [|done].
  by apply addChildItemToTree_present.
Qed.

Lemma addChildItemToTree_then_remove_restores_witness :
  removeItemFromTree (addChildItemToTree sample_tree "P" (leaf "N"))
                     "N" empty_string
  = Removed sample_tree "P".
Proof.
  apply (addChildItemToTree_then_remove_restores sample_tree "P" (leaf "N"));
    by_evaluation.
Defined.

(** * Further properties of the drag tick *)

(** What the two ways of moving the dragged block produce. *)
Lemma move_adjacent_spec clientIdsTree s b target d :
  NoDup (tree_ids clientIdsTree) ->
  pos_clientId target
    ∈ tree_ids (r_newTree (removeItemFromTree clientIdsTree (clientId b)
                                             empty_string)) ->
  exists i pid,
    inserted_at (pos_clientId target) b (is_down d) empty_string
      (r_newTree (removeItemFromTree clientIdsTree (clientId b) empty_string))
      (tree (move_adjacent clientIdsTree s b target d)) i pid
    /\ lastTarget (move_adjacent clientIdsTree s b target d)
       = Some (Pending (clientId b)
                 (removeParentId
                    (removeItemFromTree clientIdsTree (clientId b) empty_string))
                 pid i).
Proof.
  intros Hnd Hin. eexists _, _. split; [|reflexivity]. simpl.
  apply addItemToTree_present; [|done]. by apply removeItemFromTree_NoDup.
Qed.

Lemma moveItem_reparent_branch clientIdsTree s a v d :
  velocity a = Some v ->
  ((0 < v /\ d = DOWN /\ 18 <= translate a) \/
   (v < 0 /\ d = UP /\ translate a <= -18))%Q ->
  (20 < Qabs (translateX a))%Q ->
  moveItem clientIdsTree s a = Returns (reparent clientIdsTree s a d).
Proof.
  intros Hvel Hdir Hfar. rewrite (moveItem_past_guards _ _ _ _ _ Hvel Hdir).
  apply Qgtb_gt in Hfar. unfold UPDATE_PARENT_THRESHOLD. by rewrite Hfar.
Qed.

Lemma moveItem_sibling_branch clientIdsTree s a v d :
  velocity a = Some v ->
  ((0 < v /\ d = DOWN /\ 18 <= translate a) \/
   (v < 0 /\ d = UP /\ translate a <= -18))%Q ->
  (Qabs (translateX a) <= 20)%Q ->
  moveItem clientIdsTree s a = sibling_swap clientIdsTree s a v d.
Proof.
  intros Hvel Hdir Hnear. rewrite (moveItem_past_guards _ _ _ _ _ Hvel Hdir).
  apply Qltb_ge in Hnear. unfold UPDATE_PARENT_THRESHOLD, Qgtb.
  by rewrite Hnear.
Qed.

(** What a tick can write. *)
Lemma moveItem_frame clientIdsTree s s' a :
  moveItem clientIdsTree s a = Returns s' ->
  positions s' = positions s /\ dropped s' = dropped s /\
  moveCalls s' = moveCalls s /\
  (s' = s \/
   exists tid tidx,
     lastTarget s'
     = Some (Pending (clientId (dt_block a))
               (removeParentId (removeItemFromTree clientIdsTree
                                  (clientId (dt_block a)) empty_string))
               tid tidx)).
Proof.
  unfold moveItem, reparent, sibling_swap, move_adjacent, move_into, set_target.
  intros Hret.
  repeat case_match; simplify_eq; simpl; eauto 10.
Qed.

(** X9: a drag tick never writes the registry or the [dropped] flag and
    never calls the store; if it changes anything, it records a pending
    target for the dragged block whose original parent is the one
    [removeItemFromTree] finds in the authoritative tree. *)
Theorem moveItem_writes_tree_and_target_only
  (clientIdsTree : list block) (s s' : view) (a : drag_tick) :
  moveItem clientIdsTree s a = Returns s' ->
  positions s' = positions s /\ dropped s' = dropped s /\
  moveCalls s' = moveCalls s /\
  (s' = s \/
   exists tid tidx,
     lastTarget s'
     = Some (Pending (clientId (dt_block a))
               (removeParentId (removeItemFromTree clientIdsTree
                                  (clientId (dt_block a)) empty_string))
               tid tidx)).
Proof. apply moveItem_frame. Qed.

Lemma moveItem_writes_tree_and_target_only_witness :
  moveItem flat_tree flat_view drag_B_past_C
  = Returns (View [leaf "A"; leaf "C"; leaf "B"]
               (Some (Pending "B" empty_string empty_string 2))
               flat_registry false [])
  /\ positions (View [leaf "A"; leaf "C"; leaf "B"]
                  (Some (Pending "B" empty_string empty_string 2))
                  flat_registry false [])
     = positions flat_view.
Proof.
  assert (Hrun : moveItem flat_tree flat_view drag_B_past_C
                 = Returns (View [leaf "A"; leaf "C"; leaf "B"]
                              (Some (Pending "B" empty_string empty_string 2))
                              flat_registry false []))
    by (vm_compute; reflexivity).
  split; [exact Hrun|].
  exact (proj1 (moveItem_writes_tree_and_target_only flat_tree flat_view _
                  drag_B_past_C Hrun)).
Defined.

(** X10: ticks do not build on one another. What a tick writes (working
    tree and pending target) is computed from the authoritative tree,
    the registry and the tick alone: two states with the same registry
    get the same tree and target from the same tick, or are both left
    alone, or both throw. *)
Theorem moveItem_ignores_previous_ticks
  (clientIdsTree : list block) (s1 s2 : view) (a : drag_tick) :
  positions s1 = positions s2 ->
  match moveItem clientIdsTree s1 a, moveItem clientIdsTree s2 a with
  | Returns r1, Returns r2 =>
      (r1 = s1 /\ r2 = s2) \/
      (tree r1 = tree r2 /\ lastTarget r1 = lastTarget r2 /\
       lastTarget r1 <> None)
  | Throws, Throws => True
  | _, _ => False
  end.
Proof.
  intros Hpos.
  pose proof (moveItem_terminates clientIdsTree s1 a) as Ht1.
  revert Ht1.
  unfold moveItem, reparent, sibling_swap, move_adjacent, move_into, set_target.
  rewrite Hpos.
  repeat case_match; simplify_eq; simpl; intros; try done; auto.
Qed.

Lemma moveItem_ignores_previous_ticks_witness :
  match moveItem flat_tree flat_view drag_B_past_C,
        moveItem flat_tree
          (View [leaf "C"; leaf "A"; leaf "B"]
                (Some (Pending "B" empty_string empty_string 0))
                flat_registry false [])
          drag_B_past_C with
  | Returns r1, Returns r2 =>
      (r1 = flat_view /\
       r2 = View [leaf "C"; leaf "A"; leaf "B"]
                 (Some (Pending "B" empty_string empty_string 0))
                 flat_registry false []) \/
      (tree r1 = tree r2 /\ lastTarget r1 = lastTarget r2 /\
       lastTarget r1 <> None)
  | Throws, Throws => True
  | _, _ => False
  end.
Proof.
  apply (moveItem_ignores_previous_ticks flat_tree flat_view
           (View [leaf "C"; leaf "A"; leaf "B"]
                 (Some (Pending "B" empty_string empty_string 0))
                 flat_registry false [])
           drag_B_past_C).
  reflexivity.
Defined.

(** X11: the sibling swap. Take a tick past the guards with a
    horizontal translate of at most 20 in magnitude, for which
    [findFirstValidSibling] returns a row, and whose vertical translate
    exceeds half a row per row skipped. If the authoritative tree has
    pairwise distinct client ids and still holds the row's block once
    the dragged block is taken out, the working tree becomes that tree
    with the dragged block right after the row's block when moving
    down, right before it when moving up, and the pending target holds
    the dragged id, the parent it was removed from, the parent it now
    has and its index there. *)
Theorem moveItem_swaps_next_to_valid_sibling
  (clientIdsTree : list block) (s : view) (a : drag_tick) (v : Q)
  (d : direction) (target : position) (nextIndex : Z) :
  velocity a = Some v ->
  ((0 < v /\ d = DOWN /\ 18 <= translate a) \/
   (v < 0 /\ d = UP /\ translate a <= -18))%Q ->
  (Qabs (translateX a) <= 20)%Q ->
  findFirstValidSibling (positions s) (listPosition a) v
  = Returns (Some (target, nextIndex)) ->
  (ITEM_HEIGHT * inject_Z (Z.abs (listPosition a - nextIndex)) / 2
   < Qabs (translate a))%Q ->
  NoDup (tree_ids clientIdsTree) ->
  pos_clientId target
    ∈ tree_ids (r_newTree (removeItemFromTree clientIdsTree
                             (clientId (dt_block a)) empty_string)) ->
  exists s' i pid,
    moveItem clientIdsTree s a = Returns s' /\
    inserted_at (pos_clientId target) (dt_block a) (is_down d) empty_string
      (r_newTree (removeItemFromTree clientIdsTree
                    (clientId (dt_block a)) empty_string))
      (tree s') i pid /\
    lastTarget s'
    = Some (Pending (clientId (dt_block a))
              (removeParentId (removeItemFromTree clientIdsTree
                                 (clientId (dt_block a)) empty_string))
              pid i) /\
    (clientId (dt_block a)
       ∉ tree_ids (r_newTree (removeItemFromTree clientIdsTree
                                (clientId (dt_block a)) empty_string))).
Proof.
  intros Hvel Hdir Hnear Hfind Hfar Hnd Hin.
  destruct (move_adjacent_spec clientIdsTree s (dt_block a) target d Hnd Hin)
    as (i & pid & Hins & Htarget).
  exists (move_adjacent clientIdsTree s (dt_block a) target d), i, pid.
  split; [|split; [done|split; [done|apply removeItemFromTree_gone]]].
  rewrite (moveItem_sibling_branch _ _ _ _ _ Hvel Hdir Hnear).
  unfold sibling_swap. rewrite Hfind.
  apply Qgtb_gt in Hfar. by rewrite Hfar.
Qed.

Lemma moveItem_swaps_next_to_valid_sibling_witness :
  exists s' i pid,
    moveItem flat_tree flat_view drag_B_past_C = Returns s' /\
    inserted_at "C" (leaf "B") true empty_string
      (r_newTree (removeItemFromTree flat_tree "B" empty_string))
      (tree s') i pid /\
    lastTarget s'
    = Some (Pending "B"
              (removeParentId (removeItemFromTree flat_tree "B" empty_string))
              pid i) /\
    ("B" ∉ tree_ids (r_newTree (removeItemFromTree flat_tree "B" empty_string))).
Proof.
  apply (moveItem_swaps_next_to_valid_sibling flat_tree flat_view drag_B_past_C
           5 DOWN (Position "C" false true empty_string) 2).
  - reflexivity.
  - left. split; [reflexivity|]. split; [reflexivity|]. simpl. discriminate.
  - simpl. discriminate.
  - vm_compute. reflexivity.
  - reflexivity.
  - by_evaluation.
  - by_evaluation.
Defined.

(** ** Swapping neighbours at the root *)

Lemma add_loop_skip id item after parentId t1 t2 newTree tidx tid :
  id ∉ tree_ids t1 ->
  -1 <= tidx ->
  add_loop (add_inner id item after) id item after parentId (t1 ++ t2)
           newTree tidx tid
  = add_loop (add_inner id item after) id item after parentId t2
             (newTree ++ t1) tidx tid.
Proof.
  intros Hnot Hidx.
  by rewrite add_loop_app, (add_loop_absent_all _ _ _ _ t1).
Qed.

Lemma removeItemFromTree_at_root l1 b l2 parentId :
  clientId b ∉ tree_ids l1 ->
  clientId b ∉ tree_ids l2 ->
  removeItemFromTree (l1 ++ b :: l2) (clientId b) parentId
  = Removed (l1 ++ l2) parentId.
Proof.
  intros Hl1 Hl2. unfold removeItemFromTree.
  rewrite remove_loop_skip, remove_loop_hit by done.
  by rewrite remove_loop_absent_all.
Qed.

Lemma addItemToTree_at_root l1 c l2 item after parentId :
  clientId c ∉ tree_ids l1 ->
  clientId c ∉ tree_ids l2 ->
  addItemToTree (l1 ++ c :: l2) (clientId c) item after parentId
  = Added (l1 ++ (if after then [c; item] else [item; c]) ++ l2) parentId
          (Z.of_nat (length l1) + (if after then 1 else 0)).
Proof.
  intros Hl1 Hl2. unfold addItemToTree.
  rewrite add_loop_skip by (done || lia). simpl.
  rewrite String.eqb_refl, !spread_id.
  destruct after; rewrite add_loop_absent_all by (done || lia);
    rewrite <- !app_assoc; simpl; f_equal; lia.
Qed.

Lemma findFirstValidSibling_next positions current v cur tp :
  positions !! current = Some cur ->
  positions !! (current + (if Qgtb v 0 then 1 else -1)) = Some tp ->
  pos_dropSibling tp = true ->
  pos_parentId tp = pos_parentId cur ->
  findFirstValidSibling positions current v
  = Returns (Some (tp, current + (if Qgtb v 0 then 1 else -1))).
Proof.
  intros Hcur Htp Hds Hpar. unfold findFirstValidSibling. simpl.
  by rewrite Htp, Hds, Hcur, Hpar, String.eqb_refl.
Qed.

Lemma one_row_threshold lp (t : Q) :
  (18 < Qabs t)%Q ->
  Qgtb (Qabs t) (ITEM_HEIGHT * inject_Z (Z.abs (lp - (lp + 1))) / 2) = true
  /\ Qgtb (Qabs t) (ITEM_HEIGHT * inject_Z (Z.abs (lp - (lp + -1))) / 2) = true.
Proof.
  intros Hfar.
  replace (lp - (lp + 1)) with (-1) by lia.
  replace (lp - (lp + -1)) with 1 by lia.
  split; apply Qgtb_gt; (eapply Qle_lt_trans; [|exact Hfar]);
    unfold Qle; simpl; lia.
Qed.

(** X12: dragging a root block down past the root block right below
    it. If the two are neighbours in a tree with pairwise distinct
    client ids, the row below the dragged one is registered as a sibling
    target with the same parent id, the velocity is positive, the
    vertical translate is more than half a row and the horizontal one at
    most 20 in magnitude, then the tick swaps the two blocks in the
    working tree and records the target: no parent before, none after,
    index one more than the number of blocks in front. *)
Theorem moveItem_swaps_with_next_root
  (l1 l2 : list block) (b c : block) (s : view) (a : drag_tick) (v : Q)
  (cur tp : position) :
  NoDup (tree_ids (l1 ++ b :: c :: l2)) ->
  dt_block a = b ->
  velocity a = Some v ->
  (0 < v)%Q ->
  (18 < translate a)%Q ->
  (Qabs (translateX a) <= 20)%Q ->
  positions s !! listPosition a = Some cur ->
  positions s !! (listPosition a + 1) = Some tp ->
  pos_dropSibling tp = true ->
  pos_parentId tp = pos_parentId cur ->
  pos_clientId tp = clientId c ->
  moveItem (l1 ++ b :: c :: l2) s a
  = Returns (View (l1 ++ c :: b :: l2)
               (Some (Pending (clientId b) empty_string empty_string
                              (Z.of_nat (length l1) + 1)))
               (positions s) (dropped s) (moveCalls s)).
Proof.
  intros Hnd Hb Hvel Hv Ht Hnear Hcur Htp Hds Hpar Hid.
  rewrite tree_ids_app, NoDup_app in Hnd. destruct Hnd as (_ & Hl1 & Hnd).
  destruct (NoDup_tree_ids_cons _ _ Hnd) as (_ & Hbrest & _ & Hnd' & _).
  destruct (NoDup_tree_ids_cons _ _ Hnd') as (_ & Hcl2 & _ & _ & _).
  assert (Hbl1 : clientId b ∉ tree_ids l1).
  { intros Hin. apply (Hl1 _ Hin). rewrite tree_ids_cons. by left. }
  assert (Hcl1 : clientId c ∉ tree_ids l1).
  { intros Hin. apply (Hl1 _ Hin). rewrite !tree_ids_cons.
    right. apply elem_of_app. right. by left. }
  assert (Hpos : (0 <= translate a)%Q).
  { apply Qlt_le_weak. by apply Qlt_trans with 18%Q. }
  rewrite (moveItem_sibling_branch _ _ _ v DOWN Hvel); [| |done].
  2:{ left. split; [done|]. split; [done|]. by apply Qlt_le_weak. }
  unfold sibling_swap.
  pose proof (findFirstValidSibling_next (positions s) (listPosition a) v
                cur tp Hcur) as Hfind.
  apply Qgtb_gt in Hv. rewrite Hv in Hfind.
  rewrite (Hfind Htp Hds Hpar).
  destruct (one_row_threshold (listPosition a) (translate a)) as [-> _].
  { by rewrite Qabs_pos. }
  unfold move_adjacent, set_target. rewrite Hb, Hid.
  rewrite removeItemFromTree_at_root by done. simpl r_newTree.
  simpl removeParentId.
  rewrite addItemToTree_at_root by done. simpl.
  by rewrite <- ?app_assoc.
Qed.

Lemma moveItem_swaps_with_next_root_witness :
  moveItem ([leaf "A"] ++ leaf "B" :: leaf "C" :: []) flat_view drag_B_past_C
  = Returns (View ([leaf "A"] ++ leaf "C" :: leaf "B" :: [])
               (Some (Pending "B" empty_string empty_string 2))
               flat_registry false []).
Proof.
  apply (moveItem_swaps_with_next_root [leaf "A"] [] (leaf "B") (leaf "C")
           flat_view drag_B_past_C 5
           (Position "B" false true empty_string)
           (Position "C" false true empty_string)); try reflexivity.
  - by_evaluation.
  - simpl. discriminate.
Defined.



(** ** The other outcomes of a horizontal gesture *)

(** X14: a gesture to the left onto a row that has no parent id or is a
    sibling target, also when the row is a container target as well.
    For a tick past the guards with a horizontal translate below -20
    and such a row at the computed position, [moveItem] returns. If the
    tree has pairwise distinct client ids and the row's block is in it
    once the dragged block is out, the working tree has the dragged
    block right after that block when moving down, right before it when
    moving up, and the pending target holds the new parent and index.
    If the row's block is not in the tree once the dragged block is out,
    the working tree is the tree without the dragged block and the
    pending target has an empty target id and index -1. *)
Theorem moveItem_left_inserts_next_to_sibling_target
  (clientIdsTree : list block) (s : view) (a : drag_tick) (v : Q)
  (d : direction) (target : position) :
  velocity a = Some v ->
  ((0 < v /\ d = DOWN /\ 18 <= translate a) \/
   (v < 0 /\ d = UP /\ translate a <= -18))%Q ->
  (translateX a < -20)%Q ->
  positions s !! next_index d (listPosition a) (translate a) = Some target ->
  pos_parentId target = empty_string \/ pos_dropSibling target = true ->
  exists s',
    moveItem clientIdsTree s a = Returns s' /\
    (NoDup (tree_ids clientIdsTree) ->
     pos_clientId target
       ∈ tree_ids (r_newTree (removeItemFromTree clientIdsTree
                                (clientId (dt_block a)) empty_string)) ->
     exists i pid,
       inserted_at (pos_clientId target) (dt_block a) (is_down d) empty_string
         (r_newTree (removeItemFromTree clientIdsTree
                       (clientId (dt_block a)) empty_string))
         (tree s') i pid /\
       lastTarget s'
       = Some (Pending (clientId (dt_block a))
                 (removeParentId (removeItemFromTree clientIdsTree
                                    (clientId (dt_block a)) empty_string))
                 pid i)) /\
    (pos_clientId target
       ∉ tree_ids (r_newTree (removeItemFromTree clientIdsTree
                                (clientId (dt_block a)) empty_string)) ->
     tree s' = r_newTree (removeItemFromTree clientIdsTree
                            (clientId (dt_block a)) empty_string) /\
     lastTarget s'
     = Some (Pending (clientId (dt_block a))
               (removeParentId (removeItemFromTree clientIdsTree
                                  (clientId (dt_block a)) empty_string))
               empty_string (-1))).
Proof.
  intros Hvel Hdir Hleft Htarget Hsib.
  exists (move_adjacent clientIdsTree s (dt_block a) target d).
  split; [|split].
  - assert (Hneg : (translateX a < 0)%Q) by (by apply Qlt_trans with (-20)%Q).
    rewrite (moveItem_reparent_branch _ _ _ _ _ Hvel Hdir).
    2:{ rewrite Qabs_neg by (by apply Qlt_le_weak).
        apply Qopp_lt_compat in Hleft. exact Hleft. }
    unfold reparent. rewrite Htarget.
    apply Qltb_lt in Hneg. rewrite Hneg.
    destruct Hsib as [->| ->]; [done | by rewrite orb_true_r].
  - intros Hnd Hin. by apply move_adjacent_spec.
  - intros Hout. unfold move_adjacent, set_target.
    by rewrite (addItemToTree_absent _ _ _ _ _ Hout).
Qed.

Lemma moveItem_left_inserts_next_to_sibling_target_witness :
  moveItem drag_tree drag_view drag_Y_left_onto_X
  = Returns
      (View
         [Block "G" true false
            [Block "P" true false [leaf "Y"; leaf "X"];
             Block "K" true false []];
          leaf "C"]
         (Some (Pending "Y" "P" "P" 0)) drag_registry false [])
  /\ exists s' i pid,
      moveItem drag_tree drag_view drag_Y_left_onto_X = Returns s' /\
      inserted_at "X" (leaf "Y") false empty_string
        (r_newTree (removeItemFromTree drag_tree "Y" empty_string))
        (tree s') i pid /\
      lastTarget s'
      = Some (Pending "Y"
                (removeParentId (removeItemFromTree drag_tree "Y" empty_string))
                pid i).
Proof.
  split; [vm_compute; reflexivity|].
  destruct (moveItem_left_inserts_next_to_sibling_target drag_tree drag_view
              drag_Y_left_onto_X (-5)%Q UP (Position "X" false true "P"))
    as (s' & Hrun & Hfound & _).
  - reflexivity.
  - right. split; [reflexivity|]. split; [reflexivity|]. simpl. discriminate.
  - reflexivity.
  - vm_compute; reflexivity.
  - by right.
  - destruct Hfound as (i & pid & Hins & Hlast); [by_evaluation..|].
    by exists s', i, pid.
Defined.

(** X15: a gesture to the right onto a container target, whatever the
    row's other fields. For a tick past the guards with a horizontal
    translate above 20 and a container-target row at the computed
    position, [moveItem] returns and the pending target is the row's
    client id at index 0, with the dragged id and the parent it was
    removed from. If the tree has pairwise distinct client ids and the
    row's block is in it once the dragged block is out, the working tree
    has the dragged block in front of that block's [innerBlocks]. If the
    row's block is not in the tree once the dragged block is out, the
    working tree is the tree without the dragged block. *)
Theorem moveItem_right_nests_into_container
  (clientIdsTree : list block) (s : view) (a : drag_tick) (v : Q)
  (d : direction) (target : position) :
  velocity a = Some v ->
  ((0 < v /\ d = DOWN /\ 18 <= translate a) \/
   (v < 0 /\ d = UP /\ translate a <= -18))%Q ->
  (20 < translateX a)%Q ->
  positions s !! next_index d (listPosition a) (translate a) = Some target ->
  pos_dropContainer target = true ->
  exists s',
    moveItem clientIdsTree s a = Returns s' /\
    lastTarget s'
    = Some (Pending (clientId (dt_block a))
              (removeParentId (removeItemFromTree clientIdsTree
                                 (clientId (dt_block a)) empty_string))
              (pos_clientId target) 0) /\
    (NoDup (tree_ids clientIdsTree) ->
     pos_clientId target
       ∈ tree_ids (r_newTree (removeItemFromTree clientIdsTree
                                (clientId (dt_block a)) empty_string)) ->
     nested_at (pos_clientId target) (dt_block a)
       (r_newTree (removeItemFromTree clientIdsTree
                     (clientId (dt_block a)) empty_string))
       (tree s')) /\
    (pos_clientId target
       ∉ tree_ids (r_newTree (removeItemFromTree clientIdsTree
                                (clientId (dt_block a)) empty_string)) ->
     tree s' = r_newTree (removeItemFromTree clientIdsTree
                            (clientId (dt_block a)) empty_string)).
Proof.
  intros Hvel Hdir Hright Htarget Hdc.
  exists (move_into clientIdsTree s (dt_block a) target).
  assert (Hpos : (0 < translateX a)%Q) by (by apply Qlt_trans with 20%Q).
  split; [|split; [done|split]].
  - rewrite (moveItem_reparent_branch _ _ _ _ _ Hvel Hdir).
    2:{ rewrite Qabs_pos by (by apply Qlt_le_weak). done. }
    unfold reparent. rewrite Htarget.
    assert (Hnl : Qltb (translateX a) 0 = false).
    { apply Qltb_ge. by apply Qlt_le_weak. }
    apply Qgtb_gt in Hpos. by rewrite Hnl, Hpos, Hdc.
  - intros Hnd Hin. simpl. apply addChildItemToTree_present; [|done].
    by apply removeItemFromTree_NoDup.
  - intros Hout. simpl. by apply addChildItemToTree_absent.
Qed.

Lemma moveItem_right_nests_into_container_witness :
  moveItem drag_tree drag_view drag_Y_right_onto_K
  = Returns
      (View
         [Block "G" true false
            [Block "P" true false [leaf "X"];
             Block "K" true false [leaf "Y"]];
          leaf "C"]
         (Some (Pending "Y" "P" "K" 0)) drag_registry false [])
  /\ exists s',
      moveItem drag_tree drag_view drag_Y_right_onto_K = Returns s' /\
      nested_at "K" (leaf "Y")
        (r_newTree (removeItemFromTree drag_tree "Y" empty_string))
        (tree s') /\
      lastTarget s'
      = Some (Pending "Y"
                (removeParentId (removeItemFromTree drag_tree "Y" empty_string))
                "K" 0).
Proof.
  split; [vm_compute; reflexivity|].
  destruct (moveItem_right_nests_into_container drag_tree drag_view
              drag_Y_right_onto_K 5%Q DOWN (Position "K" true false "G"))
    as (s' & Hrun & Hlast & Hfound & _).
  - reflexivity.
  - left. split; [reflexivity|]. split; [reflexivity|]. simpl. discriminate.
  - reflexivity.
  - vm_compute; reflexivity.
  - reflexivity.
  - exists s'. split; [exact Hrun|]. split; [|exact Hlast].
    apply Hfound; by_evaluation.
Defined.

(** X16: a tick past the guards changes nothing when there is nothing
    to drop on: with a horizontal translate beyond 20 in magnitude, when
    no row is registered at the computed position, or the gesture is to
    the right and the row is no container target, or it is to the left
    and the row has a parent id and is neither a sibling nor a container
    target; with a smaller horizontal translate, when
    [findFirstValidSibling] returns no row or the vertical translate
    does not exceed half a row per row skipped. *)
Theorem moveItem_without_target_changes_nothing
  (clientIdsTree : list block) (s : view) (a : drag_tick) (v : Q)
  (d : direction) :
  velocity a = Some v ->
  ((0 < v /\ d = DOWN /\ 18 <= translate a) \/
   (v < 0 /\ d = UP /\ translate a <= -18))%Q ->
  ((20 < Qabs (translateX a))%Q /\
   (positions s !! next_index d (listPosition a) (translate a) = None \/
    exists target,
      positions s !! next_index d (listPosition a) (translate a) = Some target
      /\ (((0 < translateX a)%Q /\ pos_dropContainer target = false) \/
          ((translateX a < 0)%Q /\ pos_parentId target <> empty_string /\
           pos_dropSibling target = false /\
           pos_dropContainer target = false))))
  \/ ((Qabs (translateX a) <= 20)%Q /\
      (findFirstValidSibling (positions s) (listPosition a) v = Returns None \/
       exists target nextIndex,
         findFirstValidSibling (positions s) (listPosition a) v
         = Returns (Some (target, nextIndex)) /\
         (Qabs (translate a)
          <= ITEM_HEIGHT * inject_Z (Z.abs (listPosition a - nextIndex)) / 2)%Q)) ->
  moveItem clientIdsTree s a = Returns s.
Proof.
  intros Hvel Hdir [[Hfar Hcase]|[Hnear Hcase]].
  - rewrite (moveItem_reparent_branch _ _ _ _ _ Hvel Hdir Hfar).
    unfold reparent.
    destruct Hcase as [->|(target & -> & [[Hpos Hdc]|(Hneg & Hpar & Hds & Hdc)])];
      [done| |].
    + assert (Hnl : Qltb (translateX a) 0 = false).
      { apply Qltb_ge. by apply Qlt_le_weak. }
      apply Qgtb_gt in Hpos. by rewrite Hnl, Hpos, Hdc.
    + apply Qltb_lt in Hneg. rewrite Hneg, Hds, Hdc.
      by destruct (String.eqb_spec (pos_parentId target) empty_string).
  - rewrite (moveItem_sibling_branch _ _ _ _ _ Hvel Hdir Hnear).
    unfold sibling_swap.
    destruct Hcase as [->|(target & nextIndex & -> & Hshort)]; [done|].
    apply Qltb_ge in Hshort. unfold Qgtb. by rewrite Hshort.
Qed.

Lemma moveItem_without_target_changes_nothing_witness :
  moveItem drag_tree drag_view drag_C_past_the_end = Returns drag_view.
Proof.
  apply (moveItem_without_target_changes_nothing drag_tree drag_view
           drag_C_past_the_end 5 DOWN).
  - reflexivity.
  - left. split; [reflexivity|]. split; [reflexivity|]. simpl. discriminate.
  - left. split; [reflexivity|]. left. vm_compute; reflexivity.
Defined.

(** ** Rows that are not, or no longer, what they seem *)

(** X17: a row whose block is not in the tree (a row left behind in the
    registry, or a row of the dragged block's own subtree) is still
    accepted as a swap target. The tick then sets the working tree to
    the authoritative tree without the dragged block and records the
    not-found results of [addItemToTree] as the target: empty parent and
    index -1, which [dropItem] passes on to [moveBlocksToPosition]. *)
Theorem moveItem_row_without_block_records_sentinel
  (clientIdsTree : list block) (s : view) (a : drag_tick) (v : Q)
  (d : direction) (target : position) (nextIndex : Z) :
  velocity a = Some v ->
  ((0 < v /\ d = DOWN /\ 18 <= translate a) \/
   (v < 0 /\ d = UP /\ translate a <= -18))%Q ->
  (Qabs (translateX a) <= 20)%Q ->
  findFirstValidSibling (positions s) (listPosition a) v
  = Returns (Some (target, nextIndex)) ->
  (ITEM_HEIGHT * inject_Z (Z.abs (listPosition a - nextIndex)) / 2
   < Qabs (translate a))%Q ->
  pos_clientId target
    ∉ tree_ids (r_newTree (removeItemFromTree clientIdsTree
                             (clientId (dt_block a)) empty_string)) ->
  exists s',
    moveItem clientIdsTree s a = Returns s' /\
    tree s' = r_newTree (removeItemFromTree clientIdsTree
                           (clientId (dt_block a)) empty_string) /\
    lastTarget s'
    = Some (Pending (clientId (dt_block a))
              (removeParentId (removeItemFromTree clientIdsTree
                                 (clientId (dt_block a)) empty_string))
              empty_string (-1)) /\
    moveCalls (dropItem s')
    = moveCalls s ++
      [MoveCall [clientId (dt_block a)]
         (removeParentId (removeItemFromTree clientIdsTree
                            (clientId (dt_block a)) empty_string))
         empty_string (-1)].
Proof.
  intros Hvel Hdir Hnear Hfind Hfar Hstale.
  exists (move_adjacent clientIdsTree s (dt_block a) target d). split.
  - rewrite (moveItem_sibling_branch _ _ _ _ _ Hvel Hdir Hnear).
    unfold sibling_swap. rewrite Hfind.
    apply Qgtb_gt in Hfar. by rewrite Hfar.
  - unfold move_adjacent, set_target, dropItem.
    by rewrite (addItemToTree_absent _ _ _ _ _ Hstale).
Qed.

Lemma moveItem_row_without_block_records_sentinel_witness :
  exists s',
    moveItem two_roots stale_view drag_B_past_Z = Returns s' /\
    tree s' = r_newTree (removeItemFromTree two_roots "B" empty_string) /\
    lastTarget s'
    = Some (Pending "B"
              (removeParentId (removeItemFromTree two_roots "B" empty_string))
              empty_string (-1)) /\
    moveCalls (dropItem s')
    = moveCalls stale_view ++
      [MoveCall ["B"]
         (removeParentId (removeItemFromTree two_roots "B" empty_string))
         empty_string (-1)].
Proof.
  apply (moveItem_row_without_block_records_sentinel two_roots stale_view
           drag_B_past_Z 5 DOWN (Position "Z" false true empty_string) 2).
  - reflexivity.
  - left. split; [reflexivity|]. split; [reflexivity|]. simpl. discriminate.
  - simpl. discriminate.
  - vm_compute; reflexivity.
  - reflexivity.
  - by_evaluation.
Defined.

Section WalkWithoutRow.
Variable it : Z.

Lemma sibling_walk_without_row (m : gmap Z position) fuel :
  forall index,
    sibling_walk fuel m None it index <> Diverges ->
    exists k : nat,
      (forall j : nat, (j < k)%nat ->
         exists p, m !! (index + Z.of_nat j * it) = Some p /\
                   pos_dropSibling p = false) /\
      match m !! (index + Z.of_nat k * it) with
      | Some p => pos_dropSibling p = true /\
                  sibling_walk fuel m None it index = Throws
      | None => sibling_walk fuel m None it index = Returns None
      end.
Proof.
  induction fuel as [|fuel IH]; intros index; simpl; [done|].
  destruct (m !! index) as [p|] eqn:Hp.
  - destruct (pos_dropSibling p) eqn:Hds.
    + intros _. exists O. simpl. rewrite Z.add_0_r, Hp. split; [lia | done].
    + intros Hrec. destruct (IH _ Hrec) as (k & Hskip & Hend). exists (S k).
      replace (index + Z.of_nat (S k) * it)
        with (index + it + Z.of_nat k * it) by lia.
      split; [|done]. intros [|j] Hj.
      * exists p. simpl. by rewrite Z.add_0_r.
      * destruct (Hskip j) as (q & Hq & Hnq); [lia|]. exists q.
        by replace (index + Z.of_nat (S j) * it)
          with (index + it + Z.of_nat j * it) by lia.
  - intros _. exists O. simpl. rewrite Z.add_0_r, Hp. split; [lia | done].
Qed.

End WalkWithoutRow.

(** X18: with no row registered at the current position,
    [findFirstValidSibling] still steps through the rows ahead. It
    returns the pair of nulls if it comes to an unregistered index
    before any row marked [dropSibling]; at the first row so marked it
    throws, reading the parent id of the missing current row. *)
Theorem findFirstValidSibling_without_current_row
  (positions : gmap Z position) (current : Z) (velocity : Q) (iterate : Z) :
  positions !! current = None ->
  iterate = (if Qgtb velocity 0 then 1 else -1) ->
  exists k : nat,
    (0 < k)%nat /\
    (forall j : nat, (0 < j < k)%nat ->
       exists p, positions !! (current + Z.of_nat j * iterate) = Some p /\
                 pos_dropSibling p = false) /\
    match positions !! (current + Z.of_nat k * iterate) with
    | Some p => pos_dropSibling p = true /\
                findFirstValidSibling positions current velocity = Throws
    | None => findFirstValidSibling positions current velocity = Returns None
    end.
Proof.
  intros Hcur ->.
  pose proof (findFirstValidSibling_terminates positions current velocity) as Ht.
  unfold findFirstValidSibling in *. rewrite Hcur in *.
  apply sibling_walk_without_row in Ht as (k & Hskip & Hend).
  exists (S k). split; [lia|].
  set (it := if Qgtb velocity 0 then 1 else -1) in *.
  replace (current + Z.of_nat (S k) * it)
    with (current + it + Z.of_nat k * it) by lia.
  split; [|done].
  intros [|j] Hj; [lia|]. destruct (Hskip j) as (p & Hp & Hq); [lia|].
  exists p. by replace (current + Z.of_nat (S j) * it)
    with (current + it + Z.of_nat j * it) by lia.
Qed.

Lemma findFirstValidSibling_without_current_row_witness :
  findFirstValidSibling sample_registry (-1) 1 = Throws
  /\ findFirstValidSibling sample_registry 6 1 = Returns None
  /\ exists k : nat,
      (0 < k)%nat /\
      (forall j : nat, (0 < j < k)%nat ->
         exists p, sample_registry !! (-1 + Z.of_nat j * 1) = Some p /\
                   pos_dropSibling p = false) /\
      match sample_registry !! (-1 + Z.of_nat k * 1) with
      | Some p => pos_dropSibling p = true /\
                  findFirstValidSibling sample_registry (-1) 1 = Throws
      | None => findFirstValidSibling sample_registry (-1) 1 = Returns None
      end.
Proof.
  split; [vm_compute; reflexivity|]. split; [vm_compute; reflexivity|].
  apply (findFirstValidSibling_without_current_row sample_registry (-1) 1 1);
    vm_compute; reflexivity.
Defined.

(** X19: [moveItem] always comes back, and it throws in one situation
    only: the horizontal translate is at most 20 in magnitude, no row is
    registered at the dragged block's list position, and the sibling
    search throws. With a row at the list position it returns. *)
Theorem moveItem_throws_only_without_current_row
  (clientIdsTree : list block) (s : view) (a : drag_tick) :
  moveItem clientIdsTree s a <> Diverges /\
  (moveItem clientIdsTree s a = Throws ->
   positions s !! listPosition a = None /\
   (Qabs (translateX a) <= 20)%Q /\
   findFirstValidSibling (positions s) (listPosition a)
                         (default 0%Q (velocity a)) = Throws).
Proof.
  split; [apply moveItem_terminates|]. intros Hthrow.
  destruct (positions s !! listPosition a) as [cur|] eqn:Hcur.
  { destruct (moveItem_returns clientIdsTree s a cur Hcur) as [s' Hs'].
    congruence. }
  split; [done|]. revert Hthrow. unfold moveItem.
  destruct (Qeq_bool _ _); [done|]. destruct (_ || _); [done|].
  destruct (_ || _); [done|]. destruct (Qltb _ _); [done|].
  destruct (Qgtb (Qabs _) _) eqn:Hfar; [done|].
  apply Qltb_ge in Hfar. unfold sibling_swap.
  destruct (findFirstValidSibling _ _ _) as [[[p i]|]| |]; try done.
  by destruct (Qgtb _ _).
Qed.

Lemma moveItem_throws_only_without_current_row_witness :
  moveItem flat_tree flat_view drag_unregistered = Throws
  /\ positions flat_view !! listPosition drag_unregistered = None
  /\ (Qabs (translateX drag_unregistered) <= 20)%Q.
Proof.
  assert (Hthrow : moveItem flat_tree flat_view drag_unregistered = Throws)
    by (vm_compute; reflexivity).
  split; [exact Hthrow|].
  destruct (moveItem_throws_only_without_current_row flat_tree flat_view
              drag_unregistered) as [_ Honly].
  destruct (Honly Hthrow) as (Hrow & Hnear & _). by split.
Defined.

(** * The expanded state and the rows' handlers *)



(** X21: a row that registers itself right ahead of the current
    position, as a sibling target with the current row's parent id, is
    the row [findFirstValidSibling] returns, whatever was registered
    there before. *)
Theorem registered_neighbour_is_found
  (b : block) (parentId : string) (current : Z) (velocity : Q)
  (cur : position) (st : list_view) :
  positions (lv_view st) !! current = Some cur ->
  dropSibling b = true ->
  parentId = pos_parentId cur ->
  findFirstValidSibling
    (positions
       (lv_view (registerRow b parentId
                   (current + (if Qgtb velocity 0 then 1 else -1)) st)))
    current velocity
  = Returns (Some (row_position b parentId,
                   current + (if Qgtb velocity 0 then 1 else -1))).
Proof.
  intros Hcur Hds ->. simpl. unfold setPosition.
  apply (findFirstValidSibling_next _ _ _ cur).
  - rewrite lookup_insert_ne; [done|]. destruct (Qgtb velocity 0); lia.
  - apply lookup_insert_eq.
  - done.
  - done.
Qed.

Lemma registered_neighbour_is_found_witness :
  findFirstValidSibling
    (positions
       (lv_view (registerRow (Block "N" false true []) empty_string
                   (1 + (if Qgtb 5 0 then 1 else -1)) flat_list_view)))
    1 5
  = Returns (Some (row_position (Block "N" false true []) empty_string,
                   1 + (if Qgtb 5 0 then 1 else -1))).
Proof.
  apply (registered_neighbour_is_found (Block "N" false true []) empty_string
           1 5 (Position "B" false true empty_string) flat_list_view);
    reflexivity.
Defined.

Lemma after_event_invariant c st0 st e :
  drag_invariant c st0 st ->
  drag_invariant c st0 (after_event st e).
Proof.
  intros (Hd & He & Hdr & Hm & Hl). destruct e as [t a|b p lp|t]; simpl.
  - unfold blockDrag. case_bool_decide as Hrow; [|done].
    destruct (moveItem t (lv_view st) a) as [s'| |] eqn:Hmove; [|done|done].
    apply moveItem_frame in Hmove as (Hp' & Hdr' & Hm' & Hl').
    repeat split; simpl; try congruence.
    destruct Hl' as [->|(tid & tidx & ->)]; [done|]. right.
    eexists. split; [done|]. simpl. congruence.
  - done.
  - unfold resetTree. by destruct (no_clientId (draggingId st)).
Qed.

Lemma after_events_invariant c st0 events : forall st,
  drag_invariant c st0 st ->
  drag_invariant c st0 (after_events events st).
Proof.
  induction events as [|e events IH]; intros st Hinv; [done|].
  apply IH. by apply after_event_invariant.
Qed.

(** X22: one drag, from [onDragStart] to [onDragEnd], with anything in
    between: ticks of any rows with any values, rows registering
    themselves, the working tree being reset, in any order and against
    any authoritative trees. If no target was pending when it started,
    then when it ends [moveBlocksToPosition] has been called at most
    once, for the dragged block alone; no target is pending; no block is
    being dragged; and the dragged block is expanded, whatever it was
    before, with the expanded state of every other block unchanged. *)
Theorem drag_session_commits_at_most_once
  (c : string) (events : list drag_event) (st : list_view) :
  lastTarget (lv_view st) = None ->
  c <> empty_string ->
  let st' := onDragEnd c (after_events events (onDragStart c st)) in
  (moveCalls (lv_view st') = moveCalls (lv_view st) \/
   exists fromParent toParent index,
     moveCalls (lv_view st')
     = moveCalls (lv_view st) ++ [MoveCall [c] fromParent toParent index])
  /\ lastTarget (lv_view st') = None
  /\ draggingId st' = None
  /\ expandedState st' !! c = Some true
  /\ (forall c', c' <> c -> expandedState st' !! c' = expandedState st !! c').
Proof.
  intros Hnone Hc st'.
  assert (Hstart : drag_invariant c (onDragStart c st) (onDragStart c st)).
  { unfold drag_invariant, onDragStart. simpl. repeat split; auto. }
  apply (after_events_invariant c _ events) in Hstart.
  destruct Hstart as (Hd & He & Hdr & Hm & Hl).
  assert (Hstate : expandedState (onDragStart c st)
                   = <[c := false]> (expandedState st)).
  { unfold onDragStart, collapse, no_clientId. simpl.
    by destruct (String.eqb_spec c empty_string). }
  subst st'. unfold onDragEnd. simpl in *.
  rewrite He, Hstate. unfold expand, no_clientId, expanded.
  destruct (String.eqb_spec c empty_string); [done|]. simpl.
  rewrite insert_insert_eq.
  split; [|split; [|split; [done|split]]].
  - unfold dropItem.
    destruct Hl as [->|(t & -> & Ht)]; [left; congruence|]. right. simpl.
    eexists _, _, _. by rewrite Hm, Ht.
  - unfold dropItem. by destruct Hl as [Hl|(t & Hl & _)]; rewrite Hl.
  - apply lookup_insert_eq.
  - intros c' Hne. by rewrite lookup_insert_ne.
Qed.

Lemma drag_session_commits_at_most_once_witness :
  moveCalls
    (lv_view (onDragEnd "B" (after_events drag_B_events
                               (onDragStart "B" flat_list_view))))
  = [MoveCall ["B"] empty_string empty_string 2]
  /\ positions
       (lv_view (onDragEnd "B" (after_events drag_B_events
                                  (onDragStart "B" flat_list_view))))
     !! 1 = Some (Position "C" false true empty_string)
  /\ lastTarget
       (lv_view (onDragEnd "B" (after_events drag_B_events
                                  (onDragStart "B" flat_list_view))))
     = None.
Proof.
  split; [vm_compute; reflexivity|]. split; [vm_compute; reflexivity|].
  apply (drag_session_commits_at_most_once "B" drag_B_events flat_list_view);
    [reflexivity | discriminate].
Defined.

(** X23: what is shown when a drag ends. With a target pending the list
    goes on showing the working tree after [onDragEnd], and the
    authoritative tree once the timer has fired; with none pending (and
    no earlier drop still settling) it shows the authoritative tree at
    once. *)
Theorem blocksShown_after_drag_end
  (clientIdsTree : list block) (c : string) (st : list_view) :
  dropped (lv_view st) = false ->
  match lastTarget (lv_view st) with
  | Some _ =>
      blocksShown clientIdsTree (onDragEnd c st) = tree (lv_view st)
      /\ blocksShown clientIdsTree (onSettle (onDragEnd c st)) = clientIdsTree
  | None => blocksShown clientIdsTree (onDragEnd c st) = clientIdsTree
  end.
Proof.
  intros Hdropped. unfold blocksShown, onSettle, onDragEnd, dropItem. simpl.
  destruct (lastTarget (lv_view st)); simpl; [done|]. by rewrite Hdropped.
Qed.

Lemma blocksShown_after_drag_end_witness :
  blocksShown flat_tree (onDragEnd "B" flat_list_view) = flat_tree.
Proof.
  apply (blocksShown_after_drag_end flat_tree "B" flat_list_view).
  reflexivity.
Defined.

(** * The stores of a move *)

Lemma no_children_nil (ls : list positive) :
  (0 <? Z.of_nat (length ls)) = false -> ls = [].
Proof. destruct ls; [done | simpl; intros H; apply Z.ltb_ge in H; lia]. Qed.

Lemma new_refer_to_new_alloc h0 h id o l :
  h0 ⊆ h ->
  h !! l = None ->
  new_refer_to_new h0 h id ->
  Forall (fun c => h0 !! c = None) (Store.o_innerBlocks o) ->
  h0 ⊆ <[l := o]> h /\ h0 !! l = None /\
  new_refer_to_new h0 (<[l := o]> h) id.
Proof.
  intros Hsub Hfresh Hinv Ho.
  assert (Hl0 : h0 !! l = None) by (by eapply lookup_weaken_None).
  split; [by apply insert_subseteq_r|]. split; [done|].
  intros l' o' Hl' Hnew. destruct (decide (l = l')) as [->|Hne].
  - rewrite lookup_insert_eq in Hl'. injection Hl' as <-. by right.
  - rewrite lookup_insert_ne in Hl' by done. by apply (Hinv l').
Qed.

(** [removeItemFromTree] returns references to objects it has made, and
    the objects it has made refer to objects it has made. *)
Lemma store_remove_loop_new h0 rec id parentId :
  (forall t p h r,
      rec t p h = Some r -> h0 ⊆ h -> new_refer_to_new h0 h None ->
      h0 ⊆ r.2 /\ new_refer_to_new h0 r.2 None /\
      Forall (fun c => h0 !! c = None) r.1.1) ->
  forall t newTree rpid h r,
    Store.remove_loop rec id parentId t newTree rpid h = Some r ->
    h0 ⊆ h -> new_refer_to_new h0 h None ->
    Forall (fun c => h0 !! c = None) newTree ->
    h0 ⊆ r.2 /\ new_refer_to_new h0 r.2 None /\
    Forall (fun c => h0 !! c = None) r.1.1.
Proof.
  intros Hrec. induction t as [|l rest IH];
    intros newTree rpid h r Hrun Hsub Hinv Hacc; cbn in Hrun.
  - by injection Hrun as <-.
  - destruct (h !! l) as [b|] eqn:Hl; [|done].
    destruct (negb _); [|by eapply IH].
    destruct (0 <? _) eqn:Hlen.
    + destruct (rec _ _ _) as [[[inner c] h1]|] eqn:Hr; [|done].
      destruct (Hrec _ _ _ _ Hr Hsub Hinv) as (Hsub1 & Hinv1 & Hinner).
      simpl in Hsub1, Hinv1, Hinner.
      unfold Store.copy_with in Hrun.
      destruct (h1 !! l) as [b1|]; [|done].
      destruct (alloc_spec h1 (Store.Obj (Store.o_clientId b1)
                                 (Store.o_dropContainer b1)
                                 (Store.o_dropSibling b1) inner))
        as (l' & Ha & Hfresh).
      rewrite Ha in Hrun.
      destruct (new_refer_to_new_alloc h0 h1 None
                  (Store.Obj (Store.o_clientId b1) (Store.o_dropContainer b1)
                             (Store.o_dropSibling b1) inner)
                  l' Hsub1 Hfresh Hinv1)
        as (Hsub2 & Hl0 & Hinv2); [exact Hinner|].
      eapply IH; [exact Hrun | done | done |].
      apply Forall_app. split; [done|]. by constructor.
    + destruct (alloc_spec h b) as (l' & Ha & Hfresh).
      rewrite Ha in Hrun. apply no_children_nil in Hlen.
      destruct (new_refer_to_new_alloc h0 h None b l' Hsub Hfresh Hinv)
        as (Hsub2 & Hl0 & Hinv2); [by rewrite Hlen|].
      eapply IH; [exact Hrun | done | done |].
      apply Forall_app. split; [done|]. by constructor.
Qed.

Lemma store_removeItemFromTree_new h0 fuel :
  forall t id parentId h r,
    Store.removeItemFromTree fuel t id parentId h = Some r ->
    h0 ⊆ h -> new_refer_to_new h0 h None ->
    h0 ⊆ r.2 /\ new_refer_to_new h0 r.2 None /\
    Forall (fun c => h0 !! c = None) r.1.1.
Proof.
  induction fuel as [|fuel IH]; intros t id parentId h r Hrun Hsub Hinv;
    [done|].
  cbn in Hrun. eapply store_remove_loop_new; [|exact Hrun|done|done|constructor].
  intros t0 p h1 r0 Hr. exact (IH t0 id p h1 r0 Hr).
Qed.

Lemma new_refer_to_new_weaken h0 h id :
  new_refer_to_new h0 h None -> new_refer_to_new h0 h id.
Proof.
  intros Hinv l o Hl Hnew. destruct (Hinv l o Hl Hnew) as [?|?]; [done|by right].
Qed.

(** [addChildItemToTree] writes only to objects of the tree it is
    given, and to those it makes. *)
Lemma store_addChild_loop_spares h0 rec id item :
  (forall t h r,
      rec t h = Some r -> h0 ⊆ h -> new_refer_to_new h0 h (Some id) ->
      Forall (fun c => h0 !! c = None) t ->
      h0 ⊆ r.2 /\ new_refer_to_new h0 r.2 (Some id) /\
      Forall (fun c => h0 !! c = None) r.1) ->
  forall t newTree h r,
    Store.addChild_loop rec id item t newTree h = Some r ->
    h0 ⊆ h -> new_refer_to_new h0 h (Some id) ->
    Forall (fun c => h0 !! c = None) t ->
    Forall (fun c => h0 !! c = None) newTree ->
    h0 ⊆ r.2 /\ new_refer_to_new h0 r.2 (Some id) /\
    Forall (fun c => h0 !! c = None) r.1.
Proof.
  intros Hrec. induction t as [|l rest IH];
    intros newTree h r Hrun Hsub Hinv Ht Hacc; cbn in Hrun.
  - by injection Hrun as <-.
  - apply Forall_cons in Ht as [Hl0 Hrest].
    destruct (h !! l) as [b|] eqn:Hl; [|done].
    destruct (String.eqb_spec (Store.o_clientId b) id) as [Heq|Hne].
    + (* the assignment: to an object that is not in [h0] *)
      eapply IH; [exact Hrun | | | done |].
      * by apply insert_subseteq_r.
      * intros l' o' Hl' Hnew. destruct (decide (l = l')) as [->|Hne].
        -- rewrite lookup_insert_eq in Hl'. injection Hl' as <-. simpl.
           left. by rewrite Heq.
        -- rewrite lookup_insert_ne in Hl' by done. by apply (Hinv l').
      * apply Forall_app. split; [done|]. by constructor.
    + assert (Hchildren : Forall (fun c => h0 !! c = None)
                                 (Store.o_innerBlocks b)).
      { destruct (Hinv l b Hl Hl0) as [Hid|?]; [|done]. congruence. }
      destruct (0 <? _) eqn:Hlen.
      * destruct (rec _ _) as [[inner h1]|] eqn:Hr; [|done].
        destruct (Hrec _ _ _ Hr Hsub Hinv Hchildren) as (Hsub1 & Hinv1 & Hinner).
        simpl in Hsub1, Hinv1, Hinner.
        destruct (alloc_spec h1 (Store.Obj (Store.o_clientId b)
                                   (Store.o_dropContainer b)
                                   (Store.o_dropSibling b) inner))
          as (l' & Ha & Hfresh).
        rewrite Ha in Hrun.
        destruct (new_refer_to_new_alloc h0 h1 (Some id)
                    (Store.Obj (Store.o_clientId b) (Store.o_dropContainer b)
                               (Store.o_dropSibling b) inner)
                    l' Hsub1 Hfresh Hinv1)
          as (Hsub2 & Hl0' & Hinv2); [exact Hinner|].
        eapply IH; [exact Hrun | done | done | done |].
        apply Forall_app. split; [done|]. by constructor.
      * destruct (alloc_spec h b) as (l' & Ha & Hfresh).
        rewrite Ha in Hrun.
        destruct (new_refer_to_new_alloc h0 h (Some id) b l' Hsub Hfresh Hinv
                    Hchildren) as (Hsub2 & Hl0' & Hinv2).
        eapply IH; [exact Hrun | done | done | done |].
        apply Forall_app. split; [done|]. by constructor.
Qed.

Lemma store_addChildItemToTree_spares h0 fuel :
  forall t id item h r,
    Store.addChildItemToTree fuel t id item h = Some r ->
    h0 ⊆ h -> new_refer_to_new h0 h (Some id) ->
    Forall (fun c => h0 !! c = None) t ->
    h0 ⊆ r.2 /\ new_refer_to_new h0 r.2 (Some id) /\
    Forall (fun c => h0 !! c = None) r.1.
Proof.
  induction fuel as [|fuel IH]; intros t id item h r Hrun Hsub Hinv Ht; [done|].
  cbn in Hrun.
  eapply store_addChild_loop_spares; [|exact Hrun|done|done|done|constructor].
  intros t0 h1 r0 Hr. exact (IH t0 id item h1 r0 Hr).
Qed.

(** X24: the two moves of [moveItem], on objects. Whatever the store
    and the references, when [removeItemFromTree] is followed by
    [addItemToTree] or by [addChildItemToTree] on the tree it returned,
    every object of the store the sequence started from is still there
    unchanged at the end: the assignment in [addChildItemToTree] falls
    on an object [removeItemFromTree] has made. *)
Theorem store_move_spares_authoritative_tree
  (h0 : gmap positive Store.obj) (fuel1 fuel2 : nat)
  (clientIdsTree : list positive) (draggedId : string) (dragged : positive)
  (target : string) (insertAfter : bool)
  (ls1 : list positive) (rp : string) (h1 : gmap positive Store.obj) :
  Store.removeItemFromTree fuel1 clientIdsTree draggedId empty_string h0
  = Some (ls1, rp, h1) ->
  (forall r,
      Store.addItemToTree fuel2 ls1 target dragged insertAfter empty_string h1
      = Some r -> h0 ⊆ r.2)
  /\ (forall r,
         Store.addChildItemToTree fuel2 ls1 target dragged h1 = Some r ->
         h0 ⊆ r.2).
Proof.
  intros Hremove. split; intros r Hadd.
  - apply store_removeItemFromTree_extends in Hremove.
    apply store_addItemToTree_extends in Hadd. simpl in Hremove.
    by transitivity h1.
  - destruct (store_removeItemFromTree_new h0 _ _ _ _ _ _ Hremove)
      as (Hsub & Hinv & Hnew); [done | by intros l o Hl Hnone; congruence |].
    simpl in *.
    apply (store_addChildItemToTree_spares h0) in Hadd as (? & _);
      [done | done | by apply new_refer_to_new_weaken | done].
Qed.

Lemma store_move_spares_authoritative_tree_witness :
  exists h2,
    Store.addChildItemToTree 1 [3%positive] "A" 2%positive
      (<[3%positive := Store.Obj "A" false false []]> two_blocks)
    = Some ([3%positive], h2)
    /\ two_blocks ⊆ h2.
Proof.
  eexists. split; [vm_compute; reflexivity|].
  destruct (store_move_spares_authoritative_tree two_blocks 1 1
              [1%positive; 2%positive] "B" 2%positive "A" true
              [3%positive] empty_string
              (<[3%positive := Store.Obj "A" false false []]> two_blocks))
    as [_ Hchild]; [vm_compute; reflexivity|].
  apply (Hchild ([3%positive], _)). vm_compute. reflexivity.
Defined.

(** [addItemToTree] returns references to objects it has made. *)
Lemma store_add_loop_new h0 rec id item insertAfter parentId :
  (forall t p h r,
      rec t p h = Some r -> h0 ⊆ h ->
      h0 ⊆ r.2 /\ Forall (fun c => h0 !! c = None) r.1.1.1) ->
  forall t newTree tidx tid h r,
    Store.add_loop rec id item insertAfter parentId t newTree tidx tid h
    = Some r ->
    h0 ⊆ h ->
    Forall (fun c => h0 !! c = None) newTree ->
    h0 ⊆ r.2 /\ Forall (fun c => h0 !! c = None) r.1.1.1.
Proof.
  intros Hrec. induction t as [|l rest IH];
    intros newTree tidx tid h r Hrun Hsub Hacc; cbn in Hrun.
  - by injection Hrun as <-.
  - destruct (h !! l) as [b|] eqn:Hl; [|done].
    destruct (String.eqb _ _).
    + destruct (h !! item) as [it|]; [|done].
      destruct insertAfter.
      * destruct (alloc_spec h b) as (lb & Ha & Hfb). rewrite Ha in Hrun.
        destruct (alloc_spec (<[lb := b]> h) it) as (li & Ha' & Hfi).
        rewrite Ha' in Hrun.
        assert (Hsub1 : h0 ⊆ <[lb := b]> h).
        { apply insert_subseteq_r; [by eapply lookup_weaken_None | done]. }
        eapply IH; [exact Hrun | | ].
        -- apply insert_subseteq_r; [by eapply lookup_weaken_None | done].
        -- apply Forall_app. split; [done|].
           constructor; [by eapply lookup_weaken_None|].
           constructor; [by eapply lookup_weaken_None | constructor].
      * destruct (alloc_spec h it) as (li & Ha & Hfi). rewrite Ha in Hrun.
        destruct (alloc_spec (<[li := it]> h) b) as (lb & Ha' & Hfb).
        rewrite Ha' in Hrun.
        assert (Hsub1 : h0 ⊆ <[li := it]> h).
        { apply insert_subseteq_r; [by eapply lookup_weaken_None | done]. }
        eapply IH; [exact Hrun | | ].
        -- apply insert_subseteq_r; [by eapply lookup_weaken_None | done].
        -- apply Forall_app. split; [done|].
           constructor; [by eapply lookup_weaken_None|].
           constructor; [by eapply lookup_weaken_None | constructor].
    + destruct (0 <? _).
      * destruct (rec _ _ _) as [[[[inner ctid] ctidx] h1]|] eqn:Hr; [|done].
        destruct (Hrec _ _ _ _ Hr Hsub) as (Hsub1 & _). simpl in Hsub1.
        destruct (Store.copy_with h1 l inner) as [o|]; [|done].
        destruct (alloc_spec h1 o) as (l' & Ha & Hfresh). rewrite Ha in Hrun.
        eapply IH; [exact Hrun | | ].
        -- apply insert_subseteq_r; [by eapply lookup_weaken_None | done].
        -- apply Forall_app. split; [done|].
           constructor; [by eapply lookup_weaken_None | constructor].
      * destruct (alloc_spec h b) as (l' & Ha & Hfresh). rewrite Ha in Hrun.
        eapply IH; [exact Hrun | | ].
        -- apply insert_subseteq_r; [by eapply lookup_weaken_None | done].
        -- apply Forall_app. split; [done|].
           constructor; [by eapply lookup_weaken_None | constructor].
Qed.

Lemma store_addItemToTree_new h0 fuel :
  forall t id item insertAfter parentId h r,
    Store.addItemToTree fuel t id item insertAfter parentId h = Some r ->
    h0 ⊆ h ->
    h0 ⊆ r.2 /\ Forall (fun c => h0 !! c = None) r.1.1.1.
Proof.
  induction fuel as [|fuel IH];
    intros t id item insertAfter parentId h r Hrun Hsub; [done|].
  cbn in Hrun. eapply store_add_loop_new; [|exact Hrun|done|constructor].
  intros t0 p h1 r0 Hr. exact (IH t0 id item insertAfter p h1 r0 Hr).
Qed.

(** X25: [removeItemFromTree] on objects is free of effects on what it
    is given. On a store in which the references [ls] hold the tree
    [bs], with more fuel than the tree is deep, it returns; the
    references it returns are to objects it has made, they hold the tree
    the function on trees computes, the parent id is the one that
    function computes, and every object of the store is as it was, so
    that [ls] still hold [bs]. *)
Theorem store_removeItemFromTree_is_pure
  (h : gmap positive Store.obj) (ls : list positive) (bs : list block)
  (id parentId : string) (fuel : nat) :
  (tree_height bs < fuel)%nat ->
  Forall2 (Store.repr h) ls bs ->
  exists ls' h',
    Store.removeItemFromTree fuel ls id parentId h
    = Some (ls', removeParentId (removeItemFromTree bs id parentId), h')
    /\ h ⊆ h'
    /\ Forall (fun l => h !! l = None) ls'
    /\ Forall2 (Store.repr h') ls' (r_newTree (removeItemFromTree bs id parentId))
    /\ Forall2 (Store.repr h') ls bs.
Proof.
  intros Hfuel Hls.
  destruct (store_removeItemFromTree_refines id fuel bs ls parentId h Hfuel Hls)
    as (ls' & h' & Hrun & Hsub & Hres).
  exists ls', h'. split; [done|]. split; [done|]. split; [|split; [done|]].
  - destruct (store_removeItemFromTree_new h _ _ _ _ _ _ Hrun) as (_ & _ & ?);
      [done | by intros l o Hl Hnone; congruence | done].
  - by eapply repr_list_weaken.
Qed.

(** X26: so is [addItemToTree]: on a store in which [ls] hold the tree
    [bs] and the reference [item] holds the block [b], with more fuel
    than the tree is deep, it returns references to objects it has made,
    which hold the tree the function on trees computes, with the same
    target id and index, and every object of the store is as it was. *)
Theorem store_addItemToTree_is_pure
  (h : gmap positive Store.obj) (ls : list positive) (bs : list block)
  (item : positive) (b : block) (id parentId : string) (insertAfter : bool)
  (fuel : nat) :
  (tree_height bs < fuel)%nat ->
  Forall2 (Store.repr h) ls bs ->
  Store.repr h item b ->
  exists ls' h',
    Store.addItemToTree fuel ls id item insertAfter parentId h
    = Some (ls', targetId (addItemToTree bs id b insertAfter parentId),
            targetIndex (addItemToTree bs id b insertAfter parentId), h')
    /\ h ⊆ h'
    /\ Forall (fun l => h !! l = None) ls'
    /\ Forall2 (Store.repr h') ls'
         (a_newTree (addItemToTree bs id b insertAfter parentId))
    /\ Forall2 (Store.repr h') ls bs.
Proof.
  intros Hfuel Hls Hitem.
  destruct (store_addItemToTree_refines id item b insertAfter fuel bs ls
              parentId h Hfuel Hls Hitem) as (ls' & h' & Hrun & Hsub & Hres).
  exists ls', h'. split; [done|]. split; [done|]. split; [|split; [done|]].
  - by destruct (store_addItemToTree_new h _ _ _ _ _ _ _ _ Hrun) as (_ & ?).
  - by eapply repr_list_weaken.
Qed.

Lemma two_blocks_hold :
  Forall2 (Store.repr two_blocks) [1%positive; 2%positive] [leaf "A"; leaf "B"].
Proof.
  constructor; [|constructor; [|constructor]].
  - by apply (Store.repr_obj two_blocks 1 (Store.Obj "A" false false []) []).
  - by apply (Store.repr_obj two_blocks 2 (Store.Obj "B" false false []) []).
Qed.

Lemma store_removeItemFromTree_is_pure_witness :
  exists ls' h',
    Store.removeItemFromTree 2 [1%positive; 2%positive] "B" empty_string
                             two_blocks
    = Some (ls', removeParentId
                   (removeItemFromTree [leaf "A"; leaf "B"] "B" empty_string), h')
    /\ two_blocks ⊆ h'
    /\ Forall (fun l => two_blocks !! l = None) ls'
    /\ Forall2 (Store.repr h') ls'
         (r_newTree (removeItemFromTree [leaf "A"; leaf "B"] "B" empty_string))
    /\ Forall2 (Store.repr h') [1%positive; 2%positive] [leaf "A"; leaf "B"].
Proof.
  apply (store_removeItemFromTree_is_pure two_blocks [1%positive; 2%positive]
           [leaf "A"; leaf "B"] "B" empty_string 2).
  - simpl. lia.
  - apply two_blocks_hold.
Defined.

Lemma store_addItemToTree_is_pure_witness :
  exists ls' h',
    Store.addItemToTree 2 [1%positive] "A" 2%positive true empty_string
                        two_blocks
    = Some (ls', targetId (addItemToTree [leaf "A"] "A" (leaf "B") true
                             empty_string),
            targetIndex (addItemToTree [leaf "A"] "A" (leaf "B") true
                           empty_string), h')
    /\ two_blocks ⊆ h'
    /\ Forall (fun l => two_blocks !! l = None) ls'
    /\ Forall2 (Store.repr h') ls'
         (a_newTree (addItemToTree [leaf "A"] "A" (leaf "B") true empty_string))
    /\ Forall2 (Store.repr h') [1%positive] [leaf "A"].
Proof.
  pose proof two_blocks_hold as Hhold.
  apply Forall2_cons_1 in Hhold as [HA Hrest].
  apply Forall2_cons_1 in Hrest as [HB _].
  apply (store_addItemToTree_is_pure two_blocks [1%positive] [leaf "A"]
           2%positive (leaf "B") "A" empty_string true 2).
  - simpl. lia.
  - by constructor.
  - done.
Defined.
